(** * Aggregation and percentile engine of the seismic-noise probability tools

    A shallow embedding of [src/probability/core.py] and
    [src/probability/processing.py] (the same classes are repeated verbatim in
    [src/probability/probability.py]), and of the aggregation loop of
    [src/probability/main.py].

    Modelling choices.
    - A Python [float] is an IEEE-754 binary64 number: it is embedded as Rocq's
      primitive [float], with the same rounding, infinities, signed zeros and
      NaN.
    - A Python [int] is unbounded: it is embedded as [Z].
    - A Python [dict] keeps its keys in insertion order and compares keys with
      [==]: it is embedded as an association list whose keys are compared with
      the IEEE equality [PrimFloat.eqb] (so [0.0] and [-0.0] are one key).
      CPython also accepts a key that is the very same object; that only
      matters for NaN keys.  Where the code looks a dict up with one of its
      own keys (the loops of [finalize] and [percentiles_all_periods]) the
      embedding walks the entries, which is what the identity test gives.
      Elsewhere a NaN key is taken to be another object than the keys
      stored, as the numbers parsed from two lines are.  [finalize] writes
      [probs] by value, so that a NaN period written by two calls of
      [finalize] is outside the model: the theorems on repeated calls
      exclude NaN periods.
    - A method that mutates [self] becomes a function that returns the new
      aggregator; a method that can raise returns an [outcome]. *)

From Stdlib Require Import ZArith List Bool Lia Floats String Ascii.
From Stdlib Require Import Sorted Permutation.

#[local] Set Warnings "-inexact-float".
Import ListNotations.

(** ** Exceptions *)

Inductive exn : Type :=
| ValueError
| KeyError
| OverflowError.

Inductive outcome (A : Type) : Type :=
| Return (a : A)
| Raise (e : exn).

Arguments Return {A} a.
Arguments Raise {A} e.

(** ** Python dictionaries with float keys *)

Module Dict.

Definition t (V : Type) : Type := list (float * V).

Section Ops.
Variable V : Type.

(** [d.get(k)], for a key [k] that is not one of the key objects of [d]: the
    keys are compared by value, and a NaN key is never found. *)
Fixpoint get (d : t V) (k : float) : option V :=
  match d with
  | [] => None
  | (k', v) :: rest => if (k' =? k)%float then Some v else get rest k
  end.

(** [d[k] = v], keys compared by value: an existing key keeps its place (and
    its key object), a new key goes last, and so does a NaN key. *)
Fixpoint set (d : t V) (k : float) (v : V) : t V :=
  match d with
  | [] => [(k, v)]
  | (k', v') :: rest =>
      if (k' =? k)%float then (k', v) :: rest else (k', v') :: set rest k v
  end.

Definition keys (d : t V) : list float := map fst d.
Definition values (d : t V) : list V := map snd d.

(** Truth value of a dict: [not d] holds for the empty dict. *)
Definition is_empty (d : t V) : bool :=
  match d with
  | [] => true
  | _ :: _ => false
  end.
End Ops.

Arguments get {V} d k.
Arguments set {V} d k v.
Arguments keys {V} d.
Arguments values {V} d.
Arguments is_empty {V} d.

End Dict.

(** ** Builtins on floats *)

(** [float(n)] for an [int]: rounds to the nearest binary64 number and raises
    [OverflowError] when that is out of range. *)
Definition float_of_int (n : Z) : option float :=
  let f := SF2Prim (binary_normalize prec emax n 0 false) in
  if is_infinity f then None else Some f.

(** [sum(xs)]: starts from the integer [0] and adds from left to right (the
    plain accumulation of CPython before 3.12). *)
Definition py_sum (xs : list float) : float :=
  fold_left PrimFloat.add xs 0%float.

(** [sorted(xs, key=key)]: a stable sort with [<] on the keys.  On keys
    that are not NaN every stable sort gives this list.  A list in which no
    key is below the key before it is returned as it is, here and by
    CPython, NaN keys included; other lists with a NaN key are outside the
    model. *)
Section Sorted.
Variable A : Type.
Variable key : A -> float.

Fixpoint insert_sorted (x : A) (l : list A) : list A :=
  match l with
  | [] => [x]
  | y :: rest =>
      if (key y <? key x)%float then y :: insert_sorted x rest
      else x :: y :: rest
  end.

Definition py_sorted (l : list A) : list A :=
  fold_right insert_sorted [] l.
End Sorted.

Arguments insert_sorted {A} key x l.
Arguments py_sorted {A} key l.

(** ** An order key for binary64 numbers

    A number that is not NaN is ranked by a triple of integers (class, exponent,
    mantissa) whose lexicographic order is the order of the numbers, with both
    zeros on one rank. *)

Definition rank (x : spec_float) : Z * Z * Z :=
  match x with
  | S754_nan => (0, 0, 0)%Z
  | S754_zero _ => (0, 0, 0)%Z
  | S754_infinity true => (-2, 0, 0)%Z
  | S754_infinity false => (2, 0, 0)%Z
  | S754_finite false m e => (1, e, Zpos m)%Z
  | S754_finite true m e => (-1, - e, Zneg m)%Z
  end.

Definition lex3 (a b : Z * Z * Z) : comparison :=
  match (fst (fst a) ?= fst (fst b))%Z with
  | Eq =>
      match (snd (fst a) ?= snd (fst b))%Z with
      | Eq => (snd a ?= snd b)%Z
      | c => c
      end
  | c => c
  end.

Definition is_nanSF (x : spec_float) : bool :=
  match x with S754_nan => true | _ => false end.

Definition fkey (x : float) : Z * Z * Z := rank (Prim2SF x).

(** ** core.py *)

Record PdfRecord : Type := mkPdfRecord {
  period_log10 : float;
  power_db : float;
  probability : float
}.

(** ** processing.py: PeriodPowerAggregator *)

Record aggregator : Type := mkAggregator {
  sums : Dict.t (Dict.t float);
  probs : Dict.t (Dict.t float)
}.

(** [PeriodPowerAggregator()] *)
Definition new_aggregator : aggregator := mkAggregator [] [].

(** The bound below which a bin is dropped, [1e-9], and the value forced on
    the last bin, [1.0000001], as the binary64 numbers Python reads. *)
Definition epsilon : float := 0x1.12e0be826d695p-30%float.
Definition forced_total : float := 0x1.000001ad7f29bp+0%float.

Definition add_record (a : aggregator) (record : PdfRecord) : aggregator :=
  let period_map :=
    match Dict.get (sums a) (period_log10 record) with
    | None => []
    | Some m => m
    end in
  let prev :=
    match Dict.get period_map (power_db record) with
    | None => 0%float
    | Some v => v
    end in
  mkAggregator
    (Dict.set (sums a) (period_log10 record)
       (Dict.set period_map (power_db record) (prev + probability record)%float))
    (probs a).

(** The first inner loop of [finalize]: one averaged entry per power bin. *)
Definition average (power_map : Dict.t float) (n : float) : Dict.t float :=
  fold_left (fun avg_map kv => Dict.set avg_map (fst kv) (snd kv / n)%float)
    power_map [].

(** The second inner loop: every entry of [avg_map] is multiplied in place. *)
Definition rescale (avg_map : Dict.t float) (scale : float) : Dict.t float :=
  map (fun kv => (fst kv, (snd kv * scale)%float)) avg_map.

Definition renormalize (avg_map : Dict.t float) : Dict.t float :=
  let total_prob := py_sum (Dict.values avg_map) in
  if (0 <? total_prob)%float then rescale avg_map (1 / total_prob)%float
  else avg_map.

(** One turn of the outer loop of [finalize].  [float(num_files)] is only
    evaluated when the period has a power bin. *)
Definition finalize_period (num_files : Z) (power_map : Dict.t float)
  : outcome (Dict.t float) :=
  match power_map with
  | [] => Return []
  | _ :: _ =>
      match float_of_int num_files with
      | None => Raise OverflowError
      | Some n => Return (renormalize (average power_map n))
      end
  end.

(** The outer loop over [list(self.sums.keys())]: returns the [probs] dict
    reached and the exception that stopped the loop, if any. *)
Fixpoint finalize_loop (num_files : Z) (periods : Dict.t (Dict.t float))
  (pr : Dict.t (Dict.t float)) : Dict.t (Dict.t float) * option exn :=
  match periods with
  | [] => (pr, None)
  | (period, power_map) :: rest =>
      match finalize_period num_files power_map with
      | Raise e => (pr, Some e)
      | Return avg_map => finalize_loop num_files rest (Dict.set pr period avg_map)
      end
  end.

(** [finalize(num_files)]: the aggregator after the call, and the exception
    raised, if any. *)
Definition finalize (a : aggregator) (num_files : Z) : aggregator * option exn :=
  if (num_files <=? 0)%Z then (a, Some ValueError)
  else
    let (pr, e) := finalize_loop num_files (sums a) (probs a) in
    (mkAggregator (sums a) pr, e).

(** The [while] loop of [percentiles_for_period]: the targets still waiting
    and the result dict. *)
Fixpoint assign_targets (cumulative power : float) (targets : list float)
  (res : Dict.t float) : list float * Dict.t float :=
  match targets with
  | [] => ([], res)
  | t :: rest =>
      if (t <=? cumulative)%float
      then assign_targets cumulative power rest (Dict.set res t power)
      else (targets, res)
  end.

(** The [for] loop over the sorted bins. *)
Fixpoint walk (items : list (float * float)) (targets : list float)
  (cumulative : float) (res : Dict.t float) : Dict.t float :=
  match items with
  | [] => res
  | (power, prob) :: rest =>
      let cumulative := (cumulative + prob)%float in
      let cumulative :=
        match rest with
        | [] => forced_total
        | _ :: _ => cumulative
        end in
      let (targets, res) := assign_targets cumulative power targets res in
      walk rest targets cumulative res
  end.

Definition valid_items (power_map : Dict.t float) : list (float * float) :=
  filter (fun kv => (epsilon <? snd kv)%float) power_map.

(** The body of [percentiles_for_period] once [self.probs.get(period)] has
    given [power_map]. *)
Definition percentiles_of (power_map : Dict.t float) (percentiles : list float)
  : outcome (Dict.t float) :=
  if Dict.is_empty power_map then Raise KeyError
  else
    let items := py_sorted fst (valid_items power_map) in
    let targets := py_sorted (fun x => x) percentiles in
    Return (walk items targets 0%float []).

(** [percentiles_for_period(period, percentiles)], asked with a number
    [period]: the lookup compares it with the keys of [probs] by value. *)
Definition percentiles_for_period (a : aggregator) (period : float)
  (percentiles : list float) : outcome (Dict.t float) :=
  match Dict.get (probs a) period with
  | None => Raise KeyError
  | Some power_map => percentiles_of power_map percentiles
  end.

(** The loop of [percentiles_all_periods] over [sorted(self.probs.keys())].
    Each [period] is a key of [probs] itself, so that
    [self.probs.get(period)] inside [percentiles_for_period] gives the map
    stored under that very key, also when the key is NaN (CPython finds the
    identical object before it compares values): every key travels with its
    map. *)
Fixpoint all_periods_loop (percentiles : list float)
  (periods : list (float * Dict.t float)) (result : Dict.t (Dict.t float))
  : outcome (Dict.t (Dict.t float)) :=
  match periods with
  | [] => Return result
  | (period, power_map) :: rest =>
      match percentiles_of power_map percentiles with
      | Raise e => Raise e
      | Return r => all_periods_loop percentiles rest (Dict.set result period r)
      end
  end.

Definition percentiles_all_periods (a : aggregator) (percentiles : list float)
  : outcome (Dict.t (Dict.t float)) :=
  all_periods_loop percentiles (py_sorted fst (probs a)) [].

(** ** Notions used in the statements *)

(** [x] is not above [y] for the sort key. *)
Definition key_le (A : Type) (key : A -> float) (x y : A) : Prop :=
  (key x <=? key y)%float = true.

Arguments key_le {A} key x y.

(** A well-formed sample: its three fields are finite. *)
Definition finite_record (r : PdfRecord) : Prop :=
  is_finite (period_log10 r) = true /\
  is_finite (power_db r) = true /\
  is_finite (probability r) = true.

Inductive reachable : aggregator -> Prop :=
| reach_new : reachable new_aggregator
| reach_add (a : aggregator) (r : PdfRecord) :
    reachable a -> finite_record r -> reachable (add_record a r)
| reach_finalize (a : aggregator) (num_files : Z) :
    reachable a -> reachable (fst (finalize a num_files)).

Definition nonempty_maps (d : Dict.t (Dict.t float)) : Prop :=
  forall k m, In (k, m) d -> m <> [].

Definition keys_not_nan (V : Type) (d : Dict.t V) : Prop :=
  Forall (fun k => is_nan k = false) (Dict.keys d).

Arguments keys_not_nan {V} d.


(** A sequence of assignments [d[k] = v], in order. *)
Definition apply_sets (V : Type) (ops : list (float * V)) (d : Dict.t V)
  : Dict.t V :=
  fold_left (fun acc kv => Dict.set acc (fst kv) (snd kv)) ops d.

(** Whether one of the assignments is to the key [k]. *)
Definition touches (V : Type) (k : float) (ops : list (float * V)) : bool :=
  existsb (fun kv => (fst kv =? k)%float) ops.

Arguments apply_sets {V} ops d.
Arguments touches {V} k ops.


(** The targets that one bin receives, and the targets left for the next. *)
Fixpoint reached (cumulative : float) (targets : list float)
  : list float * list float :=
  match targets with
  | [] => ([], [])
  | t :: rest =>
      if (t <=? cumulative)%float
      then (t :: fst (reached cumulative rest), snd (reached cumulative rest))
      else ([], targets)
  end.

(** The assignments [res[target] = power] of the whole walk, in order. *)
Fixpoint assignments (items : list (float * float)) (targets : list float)
  (cumulative : float) : list (float * float) :=
  match items with
  | [] => []
  | (power, prob) :: rest =>
      let cumulative := (cumulative + prob)%float in
      let cumulative :=
        match rest with
        | [] => forced_total
        | _ :: _ => cumulative
        end in
      map (fun t => (t, power)) (fst (reached cumulative targets))
      ++ assignments rest (snd (reached cumulative targets)) cumulative
  end.

(** The values that [cumulative] takes after each bin, before the last bin is
    forced. *)
Fixpoint running_sums (cumulative : float) (masses : list float) : list float :=
  match masses with
  | [] => []
  | x :: rest => (cumulative + x)%float :: running_sums (cumulative + x)%float rest
  end.

Definition pair_le (x y : float * float) : Prop :=
  (fst x <=? fst y)%float = true /\ (snd x <=? snd y)%float = true.

(** [sums[period][power]], when it exists. *)
Definition lookup (d : Dict.t (Dict.t float)) (period power : float)
  : option float :=
  match Dict.get d period with
  | None => None
  | Some m => Dict.get m power
  end.

(** The aggregator after [add_record] on every sample of [rs], in order. *)
Definition feed (rs : list PdfRecord) : aggregator :=
  fold_left add_record rs new_aggregator.

(** The samples of [rs] that fall in the bin of [period] and [power]. *)
Definition in_bin (period power : float) (r : PdfRecord) : bool :=
  (period_log10 r =? period)%float && (power_db r =? power)%float.

(** The sum of a bin as [add_record] builds it: from [0.0], in arrival
    order. *)
Definition bin_sum (period power : float) (rs : list PdfRecord) : option float :=
  match filter (in_bin period power) rs with
  | [] => None
  | l => Some (fold_left PrimFloat.add (map probability l) 0%float)
  end.

Definition bump (acc : option float) (x : float) : option float :=
  Some (match acc with None => 0 | Some v => v end + x)%float.

(** ** Strings: [str.split()] and [float(str)]

    A Python [str] is embedded as a Rocq [string] whose characters are the
    code points below U+0100. *)

(** [c.isspace()] for a code point below U+0100. *)
Definition is_space (c : ascii) : bool :=
  let n := nat_of_ascii c in
  ((9 <=? n) && (n <=? 13) || (28 <=? n) && (n <=? 32)
   || (n =? 133) || (n =? 160))%nat.

(** [line.split()]: the maximal runs of characters that are not white space.
    [cur] holds the run being read, last character first. *)
Fixpoint split_from (cur : list ascii) (s : list ascii) : list (list ascii) :=
  match s with
  | [] =>
      match cur with
      | [] => []
      | _ :: _ => [rev cur]
      end
  | c :: rest =>
      if is_space c then
        match cur with
        | [] => split_from [] rest
        | _ :: _ => rev cur :: split_from [] rest
        end
      else split_from (c :: cur) rest
  end.

Definition py_split (line : string) : list (list ascii) :=
  split_from [] (list_ascii_of_string line).

(** The value of a decimal digit. *)
Definition digit_of (c : ascii) : option Z :=
  let n := nat_of_ascii c in
  if ((48 <=? n) && (n <=? 57))%nat then Some (Z.of_nat n - 48)%Z else None.

Definition lower (c : ascii) : ascii :=
  let n := nat_of_ascii c in
  if ((65 <=? n) && (n <=? 90))%nat then ascii_of_nat (n + 32) else c.

(** The rest of a [digitpart] after a digit: digits, each one possibly after
    one underscore.  Returns the digits read so far, last first, and what
    follows. *)
Fixpoint digitpart_rest (acc : list Z) (s : list ascii)
  : list Z * list ascii :=
  match s with
  | [] => (acc, [])
  | c :: rest =>
      match digit_of c with
      | Some d => digitpart_rest (d :: acc) rest
      | None =>
          if Ascii.eqb c "_" then
            match rest with
            | c2 :: rest2 =>
                match digit_of c2 with
                | Some d => digitpart_rest (d :: acc) rest2
                | None => (acc, s)
                end
            | [] => (acc, s)
            end
          else (acc, s)
      end
  end.

(** [digitpart ::= digit (["_"] digit)*] *)
Definition digitpart (s : list ascii) : option (list Z * list ascii) :=
  match s with
  | c :: rest =>
      match digit_of c with
      | Some d => Some (digitpart_rest [d] rest)
      | None => None
      end
  | [] => None
  end.

(** The number that a list of digits, last first, writes. *)
Fixpoint digits_value (rev_digits : list Z) : Z :=
  match rev_digits with
  | [] => 0
  | d :: rest => (d + 10 * digits_value rest)%Z
  end.

(** [sign ::= "+" | "-"], optional: whether it is ["-"], and what follows. *)
Definition sign (s : list ascii) : bool * list ascii :=
  match s with
  | c :: rest =>
      if Ascii.eqb c "-" then (true, rest)
      else if Ascii.eqb c "+" then (false, rest)
      else (false, s)
  | [] => (false, s)
  end.

(** [exponent ::= ("e" | "E") [sign] digitpart], optional: its value and what
    follows; [None] when an exponent starts and is not complete. *)
Definition exponent (s : list ascii) : option (Z * list ascii) :=
  match s with
  | c :: rest =>
      if Ascii.eqb (lower c) "e" then
        let (neg, rest) := sign rest in
        match digitpart rest with
        | Some (ds, rest) =>
            Some ((if neg then - digits_value ds else digits_value ds)%Z, rest)
        | None => None
        end
      else Some (0%Z, s)
  | [] => Some (0%Z, s)
  end.

(** [floatnumber ::= ([digitpart] "." digitpart | digitpart ["."]) [exponent]]:
    the digits [m] of the number and the power of ten [e] it is scaled by,
    for the value [m * 10^e]. *)
Definition floatnumber (s : list ascii) : option (Z * Z) :=
  let number :=
    match digitpart s with
    | Some (int_digits, rest) =>
        match rest with
        | c :: rest' =>
            if Ascii.eqb c "." then
              match digitpart rest' with
              | Some (frac_digits, rest'') =>
                  Some (int_digits, frac_digits, rest'')
              | None => Some (int_digits, [], rest')
              end
            else Some (int_digits, [], rest)
        | [] => Some (int_digits, [], rest)
        end
    | None =>
        match s with
        | c :: rest' =>
            if Ascii.eqb c "." then
              match digitpart rest' with
              | Some (frac_digits, rest'') => Some ([], frac_digits, rest'')
              | None => None
              end
            else None
        | [] => None
        end
    end in
  match number with
  | Some (int_digits, frac_digits, rest) =>
      match exponent rest with
      | Some (e, []) =>
          Some (digits_value (frac_digits ++ int_digits),
                (e - Z.of_nat (List.length frac_digits))%Z)
      | _ => None
      end
  | None => None
  end.

(** The binary64 number nearest to [m * 10^e] (ties to even), with the sign
    [neg]; an infinity when that is out of range. *)
Definition nearest_float (neg : bool) (m e : Z) : float :=
  match m with
  | Zpos p =>
      SF2Prim
        (match e with
         | Zneg k =>
             let '(q, e', l) :=
               SFdiv_core_binary prec emax (Zpos p) 0 (Z.pow_pos 10 k) 0 in
             binary_round_aux prec emax neg q e' l
         | _ => binary_round prec emax neg (p * Z.to_pos (10 ^ e)) 0
         end)
  | _ => if neg then (-0)%float else 0%float
  end.

(** [float(s)] for a string without white space around it: [None] stands for
    [ValueError]. *)
Definition py_float (s : list ascii) : option float :=
  let (neg, rest) := sign s in
  let word := string_of_list_ascii (map lower rest) in
  if (String.eqb word "inf" || String.eqb word "infinity")%bool then
    Some (if neg then neg_infinity else infinity)
  else if String.eqb word "nan" then Some nan
  else
    match floatnumber rest with
    | Some (m, e) => Some (nearest_float neg m e)
    | None => None
    end.

(** [DefaultLineParser.parse] *)
Definition parse (line : string) : option PdfRecord :=
  let parts := py_split line in
  if (List.length parts <? 3)%nat then None
  else
    match parts with
    | p0 :: p1 :: p2 :: _ =>
        match py_float p0, py_float p1, py_float p2 with
        | Some period, Some power, Some prob =>
            Some (mkPdfRecord period power prob)
        | _, _, _ => None
        end
    | _ => None
    end.

Definition no_space (t : list ascii) : Prop :=
  Forall (fun c => is_space c = false) t.

(** ** Dictionaries whose keys differ *)

(** No key of the list compares equal to a later one. *)
Fixpoint distinct_keys (ks : list float) : Prop :=
  match ks with
  | [] => True
  | k :: rest =>
      Forall (fun k' => (k =? k')%float = false) rest /\ distinct_keys rest
  end.

(** A dict as Python builds it from numbers that are not NaN. *)
Definition well_keyed (V : Type) (d : Dict.t V) : Prop :=
  keys_not_nan d /\ distinct_keys (Dict.keys d).

Arguments well_keyed {V} d.

(** The value of [cumulative] that the targets are compared with at the bin
    of probability [prob] that follows the bins [before] and is followed by
    the bins [after], in a walk that starts from [c]. *)
Definition cumulative_at (c : float) (before : list (float * float))
  (prob : float) (after : list (float * float)) : float :=
  match after with
  | [] => forced_total
  | _ :: _ => fold_left PrimFloat.add (map snd before ++ [prob]) c
  end.

(** ** The aggregation of one station and component in [main]

    A [PdfDirectoryReader] is seen through the two things [main] uses: its
    [file_count] and the samples that [iter_records] yields. *)
Record reader := mkReader {
  file_count : Z;
  records : list PdfRecord
}.

(** The loop over the years whose directory exists: the samples of a reader
    are added only when it has files. *)
Fixpoint read_years (readers : list reader) (agg : aggregator)
  (total_files_processed : Z) : aggregator * Z :=
  match readers with
  | [] => (agg, total_files_processed)
  | rd :: rest =>
      if (0 <? file_count rd)%Z
      then read_years rest (fold_left add_record (records rd) agg)
             (total_files_processed + file_count rd)
      else read_years rest agg total_files_processed
  end.

(** The body of the loop over the components, up to the percentiles: [None]
    when the component is skipped for lack of files. *)
Definition aggregate_component (readers : list reader)
  (percentiles : list float) : option (outcome (Dict.t (Dict.t float))) :=
  let (agg, total_files_processed) :=
    read_years readers new_aggregator 0 in
  if (total_files_processed =? 0)%Z then None
  else
    match finalize agg total_files_processed with
    | (_, Some e) => Some (Raise e)
    | (agg', None) => Some (percentiles_all_periods agg' percentiles)
    end.

(** The readers that [main] can meet: a file count is a length, and the
    samples are well formed. *)
Definition sound_reader (rd : reader) : Prop :=
  (0 <= file_count rd)%Z /\ Forall finite_record (records rd).

(** A string of white space only, as a blank line is. *)
Definition blank (s : string) : bool :=
  forallb is_space (list_ascii_of_string s).

(** * Properties *)

(** ** Comparison of binary64 numbers through their rank *)

Lemma SFcompare_rank (x y : spec_float) :
  SFcompare x y =
  if is_nanSF x || is_nanSF y then None else Some (lex3 (rank x) (rank y)).
Proof.
  destruct x as [[]|[]| |[] m1 e1], y as [[]|[]| |[] m2 e2]; try reflexivity.
  cbn [SFcompare is_nanSF orb rank]. unfold lex3. cbn [fst snd].
  change (-1 ?= -1)%Z with Eq. cbv iota.
  rewrite Z.compare_opp, (Z.compare_antisym e1 e2).
  destruct (e1 ?= e2)%Z; reflexivity.
Qed.

(** Facts on the lexicographic comparison. *)
Lemma lex3_spec (a b : Z * Z * Z) :
  match lex3 a b with
  | Eq => a = b
  | Lt => (fst (fst a) < fst (fst b) \/
           (fst (fst a) = fst (fst b) /\
            (snd (fst a) < snd (fst b) \/
             (snd (fst a) = snd (fst b) /\ snd a < snd b))))%Z
  | Gt => (fst (fst b) < fst (fst a) \/
           (fst (fst a) = fst (fst b) /\
            (snd (fst b) < snd (fst a) \/
             (snd (fst a) = snd (fst b) /\ snd b < snd a))))%Z
  end.
Proof.
  destruct a as [[a1 a2] a3], b as [[b1 b2] b3]. unfold lex3. cbn [fst snd].
  destruct (Z.compare_spec a1 b1); [| lia | lia].
  destruct (Z.compare_spec a2 b2); [| lia | lia].
  destruct (Z.compare_spec a3 b3); [congruence | lia | lia].
Qed.

Lemma is_nan_spec (x : float) : is_nan x = is_nanSF (Prim2SF x).
Proof.
  unfold is_nan. rewrite FloatAxioms.eqb_spec. unfold SFeqb. rewrite SFcompare_rank.
  rewrite orb_diag. destruct (is_nanSF (Prim2SF x)); [reflexivity |].
  pose proof (lex3_spec (rank (Prim2SF x)) (rank (Prim2SF x))) as H.
  destruct (lex3 _ _); [reflexivity | lia | lia].
Qed.

Lemma compare_fkey (x y : float) :
  SFcompare (Prim2SF x) (Prim2SF y) =
  if is_nan x || is_nan y then None else Some (lex3 (fkey x) (fkey y)).
Proof. rewrite SFcompare_rank, !is_nan_spec. reflexivity. Qed.

Lemma ltb_fkey (x y : float) :
  (x <? y)%float = true <->
  is_nan x = false /\ is_nan y = false /\ lex3 (fkey x) (fkey y) = Lt.
Proof.
  rewrite FloatAxioms.ltb_spec. unfold SFltb. rewrite compare_fkey.
  destruct (is_nan x), (is_nan y); cbn; try (split; [discriminate | tauto || (intros (?&?&?); discriminate)]).
  destruct (lex3 _ _); split; intros; try discriminate; try tauto; destruct H as (_&_&?); discriminate.
Qed.

Lemma leb_fkey (x y : float) :
  (x <=? y)%float = true <->
  is_nan x = false /\ is_nan y = false /\ lex3 (fkey x) (fkey y) <> Gt.
Proof.
  rewrite FloatAxioms.leb_spec. unfold SFleb. rewrite compare_fkey.
  destruct (is_nan x), (is_nan y); cbn; try (split; [discriminate | (intros (?&?&?); discriminate)]).
  destruct (lex3 _ _); split; intros; try discriminate; try (repeat split; congruence).
  destruct H as (_&_&?); congruence.
Qed.

Lemma eqb_fkey (x y : float) :
  (x =? y)%float = true <->
  is_nan x = false /\ is_nan y = false /\ fkey x = fkey y.
Proof.
  rewrite FloatAxioms.eqb_spec. unfold SFeqb. rewrite compare_fkey.
  destruct (is_nan x), (is_nan y); cbn; try (split; [discriminate | (intros (?&?&?); discriminate)]).
  pose proof (lex3_spec (fkey x) (fkey y)) as H.
  destruct (lex3 _ _); split; intros; try discriminate; try (repeat split; congruence).
  - destruct H0 as (_&_&E). rewrite E in H. lia.
  - destruct H0 as (_&_&E). rewrite E in H. lia.
Qed.

Lemma ltb_false_fkey (x y : float) :
  is_nan x = false -> is_nan y = false ->
  ((x <? y)%float = false <-> lex3 (fkey x) (fkey y) <> Lt).
Proof.
  intros Hx Hy. pose proof (ltb_fkey x y) as H.
  destruct (x <? y)%float.
  - split; [discriminate |]. intros N. exfalso. apply N. apply H. reflexivity.
  - split; [| reflexivity]. intros _ E. assert (false = true) by (apply H; auto). discriminate.
Qed.

Lemma leb_false_fkey (x y : float) :
  is_nan x = false -> is_nan y = false ->
  ((x <=? y)%float = false <-> lex3 (fkey x) (fkey y) = Gt).
Proof.
  intros Hx Hy. pose proof (leb_fkey x y) as H.
  destruct (x <=? y)%float.
  - split; [discriminate |]. intros E. exfalso.
    assert (lex3 (fkey x) (fkey y) <> Gt) by (apply H; reflexivity). contradiction.
  - split; [| reflexivity]. intros _.
    destruct (lex3 (fkey x) (fkey y)) eqn:E; [| | reflexivity];
      (assert (false = true) by (apply H; repeat split; auto; congruence); discriminate).
Qed.

Lemma lex3_cases (a b : Z * Z * Z) :
  (lex3 a b = Eq /\ a = b /\ lex3 b a = Eq) \/
  (lex3 a b = Lt /\ a <> b /\ lex3 b a = Gt) \/
  (lex3 a b = Gt /\ a <> b /\ lex3 b a = Lt).
Proof.
  pose proof (lex3_spec a b) as H1. pose proof (lex3_spec b a) as H2.
  destruct (lex3 a b), (lex3 b a); subst; try lia; try tauto.
  - right. left. repeat split; auto. intros ->. lia.
  - right. right. repeat split; auto. intros ->. lia.
Qed.

Lemma lex3_trans (a b c : Z * Z * Z) :
  lex3 a b <> Gt -> lex3 b c <> Gt -> lex3 a c <> Gt.
Proof.
  pose proof (lex3_spec a b) as H1. pose proof (lex3_spec b c) as H2.
  pose proof (lex3_spec a c) as H3.
  destruct (lex3 a b), (lex3 b c), (lex3 a c); subst; try congruence; try lia.
Qed.

Lemma lex3_trans_lt_l (a b c : Z * Z * Z) :
  lex3 a b = Lt -> lex3 b c <> Gt -> lex3 a c = Lt.
Proof.
  pose proof (lex3_spec a b) as H1. pose proof (lex3_spec b c) as H2.
  pose proof (lex3_spec a c) as H3.
  destruct (lex3 a b), (lex3 b c), (lex3 a c); subst; try congruence; try lia.
Qed.

Lemma lex3_trans_lt_r (a b c : Z * Z * Z) :
  lex3 a b <> Gt -> lex3 b c = Lt -> lex3 a c = Lt.
Proof.
  pose proof (lex3_spec a b) as H1. pose proof (lex3_spec b c) as H2.
  pose proof (lex3_spec a c) as H3.
  destruct (lex3 a b), (lex3 b c), (lex3 a c); subst; try congruence; try lia.
Qed.

(** ** The order of binary64 numbers *)

Lemma float_leb_not_nan (x y : float) :
  (x <=? y)%float = true -> is_nan x = false /\ is_nan y = false.
Proof. intros H. apply leb_fkey in H. tauto. Qed.

Lemma float_ltb_not_nan (x y : float) :
  (x <? y)%float = true -> is_nan x = false /\ is_nan y = false.
Proof. intros H. apply ltb_fkey in H. tauto. Qed.

Lemma float_eqb_not_nan (x y : float) :
  (x =? y)%float = true -> is_nan x = false /\ is_nan y = false.
Proof. intros H. apply eqb_fkey in H. tauto. Qed.

Lemma float_eqb_refl (x : float) : is_nan x = false -> (x =? x)%float = true.
Proof. intros H. unfold is_nan in H. now apply negb_false_iff in H. Qed.

Lemma float_eqb_sym (x y : float) : (x =? y)%float = true -> (y =? x)%float = true.
Proof.
  intros H. apply eqb_fkey in H. apply eqb_fkey.
  destruct H as (?&?&?). auto.
Qed.

Lemma float_eqb_trans (x y z : float) :
  (x =? y)%float = true -> (y =? z)%float = true -> (x =? z)%float = true.
Proof.
  intros H1 H2. apply eqb_fkey in H1, H2. apply eqb_fkey.
  destruct H1 as (?&?&?), H2 as (?&?&?). repeat split; congruence.
Qed.

Lemma float_eqb_false_trans (x y z : float) :
  (x =? y)%float = true -> (x =? z)%float = false -> (y =? z)%float = false.
Proof.
  intros H1 H2. destruct (y =? z)%float eqn:E; [| reflexivity].
  rewrite (float_eqb_trans _ _ _ H1 E) in H2. discriminate.
Qed.

Lemma float_leb_refl (x : float) : is_nan x = false -> (x <=? x)%float = true.
Proof.
  intros H. apply leb_fkey. repeat split; auto.
  destruct (lex3_cases (fkey x) (fkey x)) as [(E&_)|[(_&N&_)|(_&N&_)]];
    congruence.
Qed.

Lemma float_leb_trans (x y z : float) :
  (x <=? y)%float = true -> (y <=? z)%float = true -> (x <=? z)%float = true.
Proof.
  intros H1 H2. apply leb_fkey in H1, H2. apply leb_fkey.
  destruct H1 as (?&?&?), H2 as (?&?&?). repeat split; auto.
  eapply lex3_trans; eauto.
Qed.

Lemma float_ltb_leb_trans (x y z : float) :
  (x <? y)%float = true -> (y <=? z)%float = true -> (x <? z)%float = true.
Proof.
  intros H1 H2. apply ltb_fkey in H1. apply leb_fkey in H2. apply ltb_fkey.
  destruct H1 as (?&?&?), H2 as (?&?&?). repeat split; auto.
  eapply lex3_trans_lt_l; eauto.
Qed.

Lemma float_leb_ltb_trans (x y z : float) :
  (x <=? y)%float = true -> (y <? z)%float = true -> (x <? z)%float = true.
Proof.
  intros H1 H2. apply leb_fkey in H1. apply ltb_fkey in H2. apply ltb_fkey.
  destruct H1 as (?&?&?), H2 as (?&?&?). repeat split; auto.
  eapply lex3_trans_lt_r; eauto.
Qed.

Lemma float_ltb_leb (x y : float) : (x <? y)%float = true -> (x <=? y)%float = true.
Proof.
  intros H. apply ltb_fkey in H. apply leb_fkey.
  destruct H as (?&?&E). repeat split; auto. congruence.
Qed.

Lemma float_eqb_leb (x y : float) : (x =? y)%float = true -> (x <=? y)%float = true.
Proof.
  intros H. apply eqb_fkey in H. apply leb_fkey.
  destruct H as (?&?&E). repeat split; auto. rewrite E.
  destruct (lex3_cases (fkey y) (fkey y)) as [(E'&_)|[(_&N&_)|(_&N&_)]];
    congruence.
Qed.

(** Two numbers that are not NaN are comparable. *)
Lemma float_ltb_false_leb (x y : float) :
  is_nan x = false -> is_nan y = false ->
  (x <? y)%float = false -> (y <=? x)%float = true.
Proof.
  intros Hx Hy H. apply ltb_false_fkey in H; auto. apply leb_fkey.
  repeat split; auto.
  destruct (lex3_cases (fkey x) (fkey y)) as [(?&?&?)|[(?&?&?)|(?&?&?)]];
    congruence.
Qed.

Lemma float_leb_false_ltb (x y : float) :
  is_nan x = false -> is_nan y = false ->
  (x <=? y)%float = false -> (y <? x)%float = true.
Proof.
  intros Hx Hy H. apply leb_false_fkey in H; auto. apply ltb_fkey.
  repeat split; auto.
  destruct (lex3_cases (fkey x) (fkey y)) as [(?&?&?)|[(?&?&?)|(?&?&?)]];
    congruence.
Qed.

Lemma float_ltb_leb_false (x y : float) :
  (x <? y)%float = true -> (y <=? x)%float = false.
Proof.
  intros H. destruct (y <=? x)%float eqn:E; [| reflexivity].
  apply ltb_fkey in H. apply leb_fkey in E.
  destruct H as (?&?&?), E as (?&?&?).
  destruct (lex3_cases (fkey x) (fkey y)) as [(?&?&?)|[(?&?&?)|(?&?&?)]];
    congruence.
Qed.

Lemma float_leb_antisym (x y : float) :
  (x <=? y)%float = true -> (y <=? x)%float = true -> (x =? y)%float = true.
Proof.
  intros H1 H2. apply leb_fkey in H1, H2. apply eqb_fkey.
  destruct H1 as (?&?&?), H2 as (?&?&?). repeat split; auto.
  destruct (lex3_cases (fkey x) (fkey y)) as [(?&?&?)|[(?&?&?)|(?&?&?)]];
    congruence.
Qed.

(** ** Invalid file counts *)

(** C3: for every aggregator and every [file_count <= 0], [finalize] raises
    [ValueError] and leaves both [sums] and [probs] as they were. *)
Theorem finalize_nonpositive_rejected :
  forall (a : aggregator) (file_count : Z),
    (file_count <= 0)%Z ->
    finalize a file_count = (a, Some ValueError).
Proof.
  intros a file_count H. unfold finalize.
  apply Z.leb_le in H. rewrite H. reflexivity.
Qed.

Lemma finalize_nonpositive_rejected_witness :
  (0 <= 0)%Z /\
  finalize (add_record new_aggregator (mkPdfRecord (-1) (-150) 0.5)) 0
  = (add_record new_aggregator (mkPdfRecord (-1) (-150) 0.5), Some ValueError).
Proof.
  split; [lia | apply finalize_nonpositive_rejected; lia].
Defined.

(** ** Facts on dictionaries *)

Section DictFacts.
Variable V : Type.
Implicit Types (d : Dict.t V) (k : float) (v : V).

Lemma get_set_eq d k k' v :
  (k =? k')%float = true -> Dict.get (Dict.set d k v) k' = Some v.
Proof.
  intros E. induction d as [| [k0 v0] d IH]; cbn.
  - now rewrite E.
  - destruct (k0 =? k)%float eqn:E0; cbn.
    + now rewrite (float_eqb_trans _ _ _ E0 E).
    + destruct (k0 =? k')%float eqn:E1; [| exact IH].
      apply float_eqb_sym in E. rewrite (float_eqb_trans _ _ _ E1 E) in E0.
      discriminate.
Qed.

Lemma get_set_same d k v :
  is_nan k = false -> Dict.get (Dict.set d k v) k = Some v.
Proof. intros H. apply get_set_eq. now apply float_eqb_refl. Qed.

Lemma get_set_other d k k' v :
  (k =? k')%float = false -> Dict.get (Dict.set d k v) k' = Dict.get d k'.
Proof.
  intros E. induction d as [| [k0 v0] d IH]; cbn.
  - now rewrite E.
  - destruct (k0 =? k)%float eqn:E0; cbn.
    + destruct (k0 =? k')%float eqn:E1; [| reflexivity].
      apply float_eqb_sym in E0. rewrite (float_eqb_trans _ _ _ E0 E1) in E.
      discriminate.
    + destruct (k0 =? k')%float; [reflexivity | exact IH].
Qed.


Lemma set_not_empty d k v : Dict.set d k v <> [].
Proof.
  destruct d as [| [k0 v0] d]; cbn; [discriminate |].
  destruct (k0 =? k)%float; discriminate.
Qed.

Lemma keys_set_present d k v :
  Dict.get d k <> None -> Dict.keys (Dict.set d k v) = Dict.keys d.
Proof.
  induction d as [| [k0 v0] d IH]; cbn; [congruence |].
  destruct (k0 =? k)%float; cbn; intros H; [reflexivity |].
  f_equal. now apply IH.
Qed.

Lemma keys_set_absent d k v :
  Dict.get d k = None -> Dict.keys (Dict.set d k v) = Dict.keys d ++ [k].
Proof.
  induction d as [| [k0 v0] d IH]; cbn; [reflexivity |].
  destruct (k0 =? k)%float; cbn; intros H; [discriminate |].
  f_equal. now apply IH.
Qed.

Lemma get_in d k v :
  Dict.get d k = Some v -> exists k0, In (k0, v) d /\ (k0 =? k)%float = true.
Proof.
  induction d as [| [k0 v0] d IH]; cbn; [discriminate |].
  destruct (k0 =? k)%float eqn:E; intros H.
  - injection H as ->. exists k0. auto.
  - destruct (IH H) as (k1 & Hin & E1). exists k1. auto.
Qed.

Lemma in_keys_get d k :
  In k (Dict.keys d) -> is_nan k = false -> Dict.get d k <> None.
Proof.
  induction d as [| [k0 v0] d IH]; cbn; [tauto |].
  intros [-> | Hin] Hn.
  - rewrite float_eqb_refl by assumption. discriminate.
  - destruct (k0 =? k)%float; [discriminate | now apply IH].
Qed.

Lemma get_none_not_in d k k0 :
  Dict.get d k = None -> In k0 (Dict.keys d) -> (k0 =? k)%float = false.
Proof.
  induction d as [| [k1 v1] d IH]; cbn; [tauto |].
  destruct (k1 =? k)%float eqn:E; [discriminate |].
  intros H [-> | Hin]; [assumption | now apply IH].
Qed.

End DictFacts.

(** ** Missing periods and periods without mass *)

Lemma zero_not_above_epsilon (v : float) :
  (v =? 0)%float = true -> (epsilon <? v)%float = false.
Proof.
  intros E. destruct (epsilon <? v)%float eqn:L; [| reflexivity].
  apply eqb_fkey in E. destruct E as (_ & _ & E).
  apply ltb_fkey in L. destruct L as (_ & _ & L).
  rewrite E in L. vm_compute in L. discriminate.
Qed.

Lemma valid_items_all_zero (power_map : Dict.t float) :
  (forall kv, In kv power_map -> (snd kv =? 0)%float = true) ->
  valid_items power_map = [].
Proof.
  intros H. unfold valid_items. induction power_map as [| kv m IH]; cbn.
  - reflexivity.
  - rewrite zero_not_above_epsilon by (apply H; now left).
    apply IH. intros kv' Hin. apply H. now right.
Qed.

(** C4: [percentiles_for_period] raises exactly when the period is absent from
    [probs] or its power map is empty, and the exception is then [KeyError];
    for a period whose power map is not empty and holds only zeros, it returns
    the empty dict. *)
Theorem percentiles_for_period_not_found :
  forall (a : aggregator) (period : float) (fractions : list float),
    ((exists e, percentiles_for_period a period fractions = Raise e) <->
     (Dict.get (probs a) period = None \/ Dict.get (probs a) period = Some []))
    /\ (forall e, percentiles_for_period a period fractions = Raise e ->
                  e = KeyError)
    /\ (forall power_map,
          Dict.get (probs a) period = Some power_map ->
          power_map <> [] ->
          (forall kv, In kv power_map -> (snd kv =? 0)%float = true) ->
          percentiles_for_period a period fractions = Return []).
Proof.
  intros a period fractions. unfold percentiles_for_period, percentiles_of.
  destruct (Dict.get (probs a) period) as [power_map |] eqn:G.
  - destruct power_map as [| kv m]; cbn [Dict.is_empty].
    + split; [| split].
      * split; [auto | intros _; eauto].
      * intros e H. now injection H as <-.
      * intros pm H N. injection H as <-. congruence.
    + split; [| split].
      * split; [intros (e & H); discriminate | intros [H | H]; discriminate].
      * intros e H. discriminate.
      * intros pm H _ Z. injection H as <-.
        rewrite (valid_items_all_zero _ Z). reflexivity.
  - split; [| split].
    + split; [auto | intros _; eauto].
    + intros e H. now injection H as <-.
    + intros pm H. discriminate.
Qed.

Lemma percentiles_for_period_not_found_witness :
  percentiles_for_period
    (fst (finalize (add_record new_aggregator (mkPdfRecord (-1) (-150) 0)) 1))
    (-1)%float [0.5; 1]%float = Return [].
Proof.
  apply (percentiles_for_period_not_found
           (fst (finalize (add_record new_aggregator (mkPdfRecord (-1) (-150) 0)) 1))
           (-1)%float [0.5; 1]%float) with (power_map := [((-150)%float, 0%float)]).
  - vm_compute. reflexivity.
  - discriminate.
  - intros kv [<- | []]. vm_compute. reflexivity.
Defined.

(** ** [sorted] returns its argument in ascending order *)

Section SortedFacts.
Variable A : Type.
Variable key : A -> float.

Lemma insert_sorted_perm (x : A) (l : list A) :
  Permutation (insert_sorted key x l) (x :: l).
Proof.
  induction l as [| y l IH]; cbn.
  - reflexivity.
  - destruct (key y <? key x)%float.
    + rewrite IH. apply perm_swap.
    + reflexivity.
Qed.

Lemma py_sorted_perm (l : list A) : Permutation (py_sorted key l) l.
Proof.
  induction l as [| x l IH]; cbn.
  - reflexivity.
  - rewrite insert_sorted_perm. now constructor.
Qed.

Lemma py_sorted_in (l : list A) (x : A) : In x (py_sorted key l) <-> In x l.
Proof.
  split; apply Permutation_in;
    [apply py_sorted_perm | symmetry; apply py_sorted_perm].
Qed.

Lemma insert_sorted_ascending (x : A) (l : list A) :
  is_nan (key x) = false ->
  Forall (fun y => is_nan (key y) = false) l ->
  StronglySorted (key_le key) l ->
  StronglySorted (key_le key) (insert_sorted key x l).
Proof.
  intros Hx Hl Hs. induction Hs as [| y l Hs IH Hy]; cbn.
  - constructor; constructor.
  - inversion Hl as [| ? ? Hny Hl']. subst.
    destruct (key y <? key x)%float eqn:E.
    + constructor; [now apply IH |].
      eapply Permutation_Forall; [symmetry; apply insert_sorted_perm |].
      constructor; [now apply float_ltb_leb | assumption].
    + assert (L : key_le key x y) by (now apply float_ltb_false_leb).
      constructor; [now constructor |].
      constructor; [assumption |].
      eapply Forall_impl; [| exact Hy].
      intros z Hz. exact (float_leb_trans _ _ _ L Hz).
Qed.

Lemma py_sorted_ascending (l : list A) :
  Forall (fun y => is_nan (key y) = false) l ->
  StronglySorted (key_le key) (py_sorted key l).
Proof.
  induction 1 as [| x l Hx Hl IH]; cbn.
  - constructor.
  - apply insert_sorted_ascending; [assumption | | assumption].
    eapply Permutation_Forall; [symmetry; apply py_sorted_perm | assumption].
Qed.

End SortedFacts.

(** ** Aggregators built through [add_record] and [finalize] *)

Lemma is_finite_not_nan (x : float) : is_finite x = true -> is_nan x = false.
Proof.
  unfold is_finite. intros H. apply negb_true_iff in H.
  now apply orb_false_iff in H.
Qed.

Lemma in_set (V : Type) (d : Dict.t V) (k k0 : float) (v v0 : V) :
  In (k, v) (Dict.set d k0 v0) -> In (k, v) d \/ v = v0.
Proof.
  induction d as [| [k1 v1] d IH]; cbn.
  - intros [H | []]. right. congruence.
  - destruct (k1 =? k0)%float; cbn.
    + intros [H | H]; [right; congruence | left; now right].
    + intros [H | H]; [left; now left |].
      destruct (IH H); [left; now right | now right].
Qed.

Lemma keys_set_not_nan (V : Type) (d : Dict.t V) (k : float) (v : V) :
  keys_not_nan d -> is_nan k = false -> keys_not_nan (Dict.set d k v).
Proof.
  unfold keys_not_nan. intros Hd Hk.
  destruct (Dict.get d k) eqn:G.
  - rewrite keys_set_present by congruence. assumption.
  - rewrite keys_set_absent by assumption.
    apply Forall_app. split; [assumption | now constructor].
Qed.

Lemma nonempty_maps_set (d : Dict.t (Dict.t float)) (k : float) (m : Dict.t float) :
  nonempty_maps d -> m <> [] -> nonempty_maps (Dict.set d k m).
Proof.
  intros Hd Hm k' m' Hin. apply in_set in Hin.
  destruct Hin as [Hin | ->]; [now apply (Hd k') | assumption].
Qed.

Lemma average_not_empty (power_map : Dict.t float) (n : float) :
  power_map <> [] -> average power_map n <> [].
Proof.
  unfold average.
  assert (G : forall l acc, (acc <> [] \/ l <> []) ->
    fold_left (fun avg_map kv => Dict.set avg_map (fst kv) (snd kv / n)%float)
      l acc <> []).
  { induction l as [| kv l IH]; cbn; intros acc H.
    - destruct H; congruence.
    - apply IH. left. apply set_not_empty. }
  intros H. apply G. now right.
Qed.

Lemma renormalize_not_empty (avg_map : Dict.t float) :
  avg_map <> [] -> renormalize avg_map <> [].
Proof.
  unfold renormalize, rescale. intros H.
  destruct (0 <? _)%float; [| assumption].
  destruct avg_map; [congruence | discriminate].
Qed.

Lemma finalize_period_not_empty (n : Z) (power_map avg_map : Dict.t float) :
  power_map <> [] ->
  finalize_period n power_map = Return avg_map -> avg_map <> [].
Proof.
  unfold finalize_period. destruct power_map as [| kv m]; [congruence |].
  intros _. destruct (float_of_int n); [| discriminate].
  intros H. injection H as <-.
  apply renormalize_not_empty, average_not_empty. discriminate.
Qed.

Lemma finalize_loop_inv (n : Z) (S P : Dict.t (Dict.t float)) :
  nonempty_maps S -> keys_not_nan S ->
  nonempty_maps P -> keys_not_nan P ->
  nonempty_maps (fst (finalize_loop n S P)) /\
  keys_not_nan (fst (finalize_loop n S P)).
Proof.
  revert P. induction S as [| [period power_map] S IH]; cbn; intros P HS KS HP KP.
  - auto.
  - destruct (finalize_period n power_map) as [avg_map | e] eqn:F; cbn; [| auto].
    inversion KS as [| ? ? Hk KS']. subst.
    apply IH.
    + intros k m Hin. apply (HS k). now right.
    + assumption.
    + apply nonempty_maps_set; [assumption |].
      apply (finalize_period_not_empty n power_map); [| assumption].
      apply (HS period). now left.
    + now apply keys_set_not_nan.
Qed.

Lemma reachable_inv (a : aggregator) :
  reachable a ->
  nonempty_maps (sums a) /\ keys_not_nan (sums a) /\
  nonempty_maps (probs a) /\ keys_not_nan (probs a).
Proof.
  induction 1 as [| a r Ha IH Hr | a n Ha IH].
  - repeat split; try constructor; intros k m [].
  - destruct IH as (S1 & S2 & P1 & P2). cbn. repeat split; auto.
    + apply nonempty_maps_set; [assumption | apply set_not_empty].
    + apply keys_set_not_nan; [assumption |].
      apply is_finite_not_nan, Hr.
  - destruct IH as (S1 & S2 & P1 & P2). unfold finalize.
    destruct (n <=? 0)%Z; cbn; [auto |].
    pose proof (@finalize_loop_inv n _ _ S1 S2 P1 P2) as (Q1 & Q2).
    destruct (finalize_loop n (sums a) (probs a)) as [pr e]. cbn in *. auto.
Qed.

Lemma get_eqb_compat (V : Type) (d : Dict.t V) (k k' : float) :
  (k =? k')%float = true -> Dict.get d k = Dict.get d k'.
Proof.
  intros E. induction d as [| [k0 v0] d IH]; cbn; [reflexivity |].
  destruct (k0 =? k)%float eqn:E0.
  - now rewrite (float_eqb_trans _ _ _ E0 E).
  - destruct (k0 =? k')%float eqn:E1; [| exact IH].
    apply float_eqb_sym in E. rewrite (float_eqb_trans _ _ _ E1 E) in E0.
    discriminate.
Qed.

Lemma get_set_preserve (V : Type) (d : Dict.t V) (k k' : float) (v : V) :
  Dict.get d k <> None -> Dict.get (Dict.set d k' v) k <> None.
Proof.
  intros H. destruct (k' =? k)%float eqn:E.
  - rewrite (get_set_eq _ d _ _ v E). discriminate.
  - now rewrite get_set_other.
Qed.



(** ** Facts on dictionaries whose keys differ *)

Lemma distinct_keys_app (ks : list float) (k : float) :
  distinct_keys ks -> Forall (fun k0 => (k0 =? k)%float = false) ks ->
  distinct_keys (ks ++ [k]).
Proof.
  induction ks as [| k0 ks IH]; cbn; intros D F.
  - split; [constructor | exact I].
  - inversion F as [| ? ? F0 F']. subst. destruct D as (D0 & D). split.
    + apply Forall_app. split; [exact D0 | now constructor].
    + now apply IH.
Qed.

Lemma well_keyed_set (V : Type) (d : Dict.t V) (k : float) (v : V) :
  well_keyed d -> is_nan k = false -> well_keyed (Dict.set d k v).
Proof.
  intros (N & D) Hk. split; [now apply keys_set_not_nan |].
  destruct (Dict.get d k) eqn:G.
  - rewrite keys_set_present by congruence. exact D.
  - rewrite keys_set_absent by assumption. apply distinct_keys_app; [exact D |].
    apply Forall_forall. intros k0 Hin. now apply (get_none_not_in V d k k0).
Qed.

Lemma well_keyed_nil (V : Type) : well_keyed (@nil (float * V)).
Proof. split; [constructor | exact I]. Qed.

Lemma set_absent (V : Type) (d : Dict.t V) (k : float) (v : V) :
  Dict.get d k = None -> Dict.set d k v = d ++ [(k, v)].
Proof.
  induction d as [| [k0 v0] d IH]; cbn; [reflexivity |].
  destruct (k0 =? k)%float; [discriminate |]. intros H. now rewrite IH.
Qed.

Lemma get_app_none (V : Type) (d d' : Dict.t V) (k : float) :
  Dict.get d k = None -> Dict.get (d ++ d') k = Dict.get d' k.
Proof.
  induction d as [| [k0 v0] d IH]; cbn; [reflexivity |].
  destruct (k0 =? k)%float; [discriminate | exact IH].
Qed.

Lemma get_fresh_none (V : Type) (d : Dict.t V) (k : float) :
  Forall (fun k0 => (k0 =? k)%float = false) (Dict.keys d) ->
  Dict.get d k = None.
Proof.
  induction d as [| [k0 v0] d IH]; cbn; [reflexivity |].
  intros F. inversion F as [| ? ? F0 F']. subst. rewrite F0. now apply IH.
Qed.

(** On a well-keyed dict the first loop of [finalize] is a map over the
    bins. *)
Lemma average_is_map (power_map : Dict.t float) (n : float) :
  well_keyed power_map ->
  average power_map n = map (fun kv => (fst kv, (snd kv / n)%float)) power_map.
Proof.
  unfold average.
  assert (G : forall l acc,
    distinct_keys (Dict.keys acc ++ Dict.keys l) ->
    fold_left (fun avg_map kv => Dict.set avg_map (fst kv) (snd kv / n)%float)
      l acc
    = acc ++ map (fun kv => (fst kv, (snd kv / n)%float)) l).
  { induction l as [| [k v] l IH]; intros acc D; cbn [fold_left map fst snd].
    - now rewrite app_nil_r.
    - assert (Fr : Forall (fun k0 => (k0 =? k)%float = false) (Dict.keys acc)).
      { clear IH. induction acc as [| [k0 v0] acc IHa]; cbn in *; [constructor |].
        destruct D as (D0 & D). constructor; [| now apply IHa].
        rewrite Forall_app in D0. destruct D0 as (_ & D0).
        now inversion D0. }
      rewrite (set_absent _ acc k _ (get_fresh_none _ acc k Fr)).
      rewrite IH.
      + now rewrite <- app_assoc.
      + unfold Dict.keys in *. rewrite map_app. cbn [map fst].
        rewrite <- app_assoc. exact D. }
  intros (_ & D). rewrite (G power_map []); [reflexivity | exact D].
Qed.

Lemma renormalize_keys (avg_map : Dict.t float) :
  Dict.keys (renormalize avg_map) = Dict.keys avg_map.
Proof.
  unfold renormalize, rescale, Dict.keys.
  destruct (0 <? _)%float; [| reflexivity].
  rewrite map_map. reflexivity.
Qed.

Lemma get_map_values (d : Dict.t float) (g : float -> float) (k : float) :
  Dict.get (map (fun kv => (fst kv, g (snd kv))) d) k
  = option_map g (Dict.get d k).
Proof.
  induction d as [| [k0 v0] d IH]; cbn; [reflexivity |].
  destruct (k0 =? k)%float; [reflexivity | exact IH].
Qed.

Lemma get_renormalize (avg_map : Dict.t float) (k : float) :
  Dict.get (renormalize avg_map) k <> None <-> Dict.get avg_map k <> None.
Proof.
  unfold renormalize, rescale. destruct (0 <? _)%float; [| tauto].
  pose proof (get_map_values avg_map
                (fun v => (v * (1 / py_sum (Dict.values avg_map)))%float) k)
    as M.
  cbn beta in M. rewrite M.
  destruct (Dict.get avg_map k); cbn; split; congruence.
Qed.

Lemma finalize_period_converted (n : Z) (nf : float) (power_map : Dict.t float) :
  float_of_int n = Some nf ->
  finalize_period n power_map = Return (renormalize (average power_map nf)).
Proof.
  intros H. unfold finalize_period. rewrite H.
  destruct power_map; reflexivity.
Qed.

Lemma finalize_period_returns (n : Z) (power_map avg_map : Dict.t float) :
  finalize_period n power_map = Return avg_map ->
  avg_map = [] \/ exists nf, avg_map = renormalize (average power_map nf).
Proof.
  unfold finalize_period. destruct power_map as [| kv rest].
  - intros H. injection H as <-. now left.
  - destruct (float_of_int n) as [nf |]; [| discriminate].
    intros H. injection H as <-. right. now exists nf.
Qed.

Lemma get_distinct (V : Type) (d : Dict.t V) (k0 k : float) (v : V) :
  distinct_keys (Dict.keys d) -> In (k0, v) d -> (k0 =? k)%float = true ->
  Dict.get d k = Some v.
Proof.
  induction d as [| [k1 v1] d IH]; cbn; [tauto |].
  intros (F & D) [H | H] E.
  - injection H as -> ->. now rewrite E.
  - destruct (k1 =? k)%float eqn:E1; [| now apply IH].
    exfalso. rewrite Forall_forall in F.
    assert (Hin : In k0 (Dict.keys d)) by (apply (in_map fst _ _ H)).
    specialize (F k0 Hin). apply float_eqb_sym in E.
    now rewrite (float_eqb_trans _ _ _ E1 E) in F.
Qed.

(** What the loop of [finalize] leaves at a period: the result of one of the
    periods of [sums] that compare equal to it, or what was there. *)
Lemma finalize_loop_origin (n : Z) (S P : Dict.t (Dict.t float))
  (period : float) (avg_map : Dict.t float) :
  Dict.get (fst (finalize_loop n S P)) period = Some avg_map ->
  (exists k0 power_map, In (k0, power_map) S /\ (k0 =? period)%float = true /\
     finalize_period n power_map = Return avg_map)
  \/ Dict.get P period = Some avg_map.
Proof.
  revert P. induction S as [| [k0 pm] S IH]; cbn; intros P H; [now right |].
  destruct (finalize_period n pm) as [avg0 | e] eqn:F; cbn in H; [| now right].
  destruct (IH _ H) as [(k1 & pm1 & Hin & E & F1) | G].
  - left. exists k1, pm1. auto.
  - destruct (k0 =? period)%float eqn:E.
    + rewrite (get_set_eq _ P k0 period avg0 E) in G. injection G as <-.
      left. exists k0, pm. auto.
    + rewrite get_set_other in G by assumption. now right.
Qed.

Lemma finalize_loop_untouched (n : Z) (S P : Dict.t (Dict.t float))
  (period : float) :
  Forall (fun k0 => (k0 =? period)%float = false) (Dict.keys S) ->
  Dict.get (fst (finalize_loop n S P)) period = Dict.get P period.
Proof.
  revert P. induction S as [| [k0 pm] S IH]; cbn; intros P F; [reflexivity |].
  inversion F as [| ? ? F0 F']. subst.
  destruct (finalize_period n pm) as [avg0 | e]; cbn; [| reflexivity].
  rewrite IH by assumption. now apply get_set_other.
Qed.

Lemma finalize_loop_converted (n : Z) (nf : float) (S P : Dict.t (Dict.t float)) :
  float_of_int n = Some nf -> snd (finalize_loop n S P) = None.
Proof.
  intros H. revert P. induction S as [| [k0 pm] S IH]; cbn; intros P;
    [reflexivity |].
  rewrite (finalize_period_converted n nf pm H). apply IH.
Qed.

Lemma finalize_loop_at (n : Z) (nf : float) (S P : Dict.t (Dict.t float))
  (period : float) (power_map : Dict.t float) :
  float_of_int n = Some nf ->
  distinct_keys (Dict.keys S) ->
  Dict.get S period = Some power_map ->
  Dict.get (fst (finalize_loop n S P)) period
  = Some (renormalize (average power_map nf)).
Proof.
  intros Hn. revert P. induction S as [| [k0 pm] S IH]; cbn; intros P D G;
    [discriminate |].
  destruct D as (F & D).
  rewrite (finalize_period_converted n nf pm Hn).
  destruct (k0 =? period)%float eqn:E.
  - injection G as ->. rewrite finalize_loop_untouched.
    + now apply get_set_eq.
    + rewrite Forall_forall in F |- *. intros k1 Hin.
      destruct (k1 =? period)%float eqn:E1; [| reflexivity].
      apply float_eqb_sym in E1.
      now rewrite <- (F k1 Hin), (float_eqb_trans _ _ _ E E1).
  - now apply IH.
Qed.

(** The dicts of running sums of a reachable aggregator are well keyed. *)
Lemma reachable_well_keyed (a : aggregator) :
  reachable a ->
  well_keyed (sums a) /\
  forall k m, In (k, m) (sums a) -> well_keyed m.
Proof.
  induction 1 as [| a r Ha IH Hr | a n Ha IH].
  - split; [apply well_keyed_nil | intros k m []].
  - destruct IH as (W & WI). destruct Hr as (Fp & Fw & _).
    apply is_finite_not_nan in Fp, Fw. cbn. split.
    + now apply well_keyed_set.
    + intros k m Hin. apply in_set in Hin. destruct Hin as [Hin | ->].
      * now apply (WI k).
      * apply well_keyed_set; [| assumption].
        destruct (Dict.get (sums a) (period_log10 r)) as [m0 |] eqn:G.
        -- destruct (get_in _ _ _ _ G) as (k0 & Hin & _). now apply (WI k0).
        -- apply well_keyed_nil.
  - unfold finalize. destruct (n <=? 0)%Z; cbn; [exact IH |].
    destruct (finalize_loop n (sums a) (probs a)). exact IH.
Qed.

Lemma finalize_unfold (a : aggregator) (n : Z) :
  (0 < n)%Z ->
  finalize a n =
  (mkAggregator (sums a) (fst (finalize_loop n (sums a) (probs a))),
   snd (finalize_loop n (sums a) (probs a))).
Proof.
  intros H. unfold finalize.
  destruct (n <=? 0)%Z eqn:E; [apply Z.leb_le in E; lia |].
  now destruct (finalize_loop n (sums a) (probs a)).
Qed.

Lemma percentiles_for_period_eqb (a : aggregator) (k k' : float) (fr : list float) :
  (k =? k')%float = true ->
  percentiles_for_period a k fr = percentiles_for_period a k' fr.
Proof.
  intros E. unfold percentiles_for_period, percentiles_of.
  now rewrite (get_eqb_compat _ (probs a) k k' E).
Qed.

Lemma percentiles_for_period_returns (a : aggregator) (p : float)
  (fr : list float) (m : Dict.t float) :
  Dict.get (probs a) p = Some m -> m <> [] ->
  exists r, percentiles_for_period a p fr = Return r.
Proof.
  intros G N. unfold percentiles_for_period, percentiles_of. rewrite G.
  destruct m; [congruence |]. cbn. eauto.
Qed.

Lemma in_keys_get_in (V : Type) (d : Dict.t V) (k : float) :
  In k (Dict.keys d) -> is_nan k = false ->
  exists k0 v, Dict.get d k = Some v /\ In (k0, v) d.
Proof.
  intros Hin Hn.
  destruct (Dict.get d k) as [v |] eqn:G.
  - destruct (get_in _ d k v G) as (k0 & H & _). eauto.
  - exfalso. now apply (in_keys_get _ d k Hin Hn).
Qed.

Lemma percentiles_of_returns (m : Dict.t float) (fr : list float) :
  m <> [] -> exists r, percentiles_of m fr = Return r.
Proof.
  intros N. unfold percentiles_of. destruct m; [congruence |]. cbn. eauto.
Qed.

Lemma percentiles_for_period_of (a : aggregator) (p : float)
  (fr : list float) (m : Dict.t float) :
  Dict.get (probs a) p = Some m ->
  percentiles_for_period a p fr = percentiles_of m fr.
Proof. intros G. unfold percentiles_for_period. now rewrite G. Qed.

Lemma all_periods_loop_ok (a : aggregator) (fr : list float)
  (periods : list (float * Dict.t float)) (result : Dict.t (Dict.t float)) :
  (forall p m, In (p, m) periods ->
     is_nan p = false /\ m <> [] /\ Dict.get (probs a) p = Some m) ->
  StronglySorted (key_le (fun x => x)) (Dict.keys result ++ map fst periods) ->
  (forall k r, Dict.get result k = Some r ->
     percentiles_for_period a k fr = Return r) ->
  exists res,
    all_periods_loop fr periods result = Return res /\
    StronglySorted (key_le (fun x => x)) (Dict.keys res) /\
    (forall k r, Dict.get res k = Some r ->
       percentiles_for_period a k fr = Return r) /\
    (forall k, Dict.get result k <> None -> Dict.get res k <> None) /\
    (forall p, In p (map fst periods) -> Dict.get res p <> None).
Proof.
  revert result. induction periods as [| [p m] periods IH]; cbn;
    intros result HP HS HQ.
  - exists result. rewrite app_nil_r in HS. repeat split; auto.
  - destruct (HP p m (or_introl eq_refl)) as (Hn & Hm & G).
    destruct (percentiles_of_returns m fr Hm) as (r & Hr). rewrite Hr.
    destruct (IH (Dict.set result p r)) as (res & E & S' & Q' & K' & C').
    + intros q mq Hq. apply HP. now right.
    + destruct (Dict.get result p) eqn:Gp.
      * rewrite keys_set_present by congruence.
        clear - HS. induction (Dict.keys result) as [| k ks IHk]; cbn in *.
        -- now inversion HS.
        -- inversion HS as [| ? ? HS' HF]. subst. constructor; [auto |].
           rewrite Forall_app in *. destruct HF as (F1 & F2).
           split; [assumption | now inversion F2].
      * rewrite keys_set_absent by assumption.
        now rewrite <- app_assoc.
    + intros k r0. destruct (p =? k)%float eqn:Epk.
      * rewrite (get_set_eq _ result _ _ r Epk). intros H. injection H as <-.
        rewrite <- (percentiles_for_period_eqb a _ _ fr Epk).
        now rewrite (percentiles_for_period_of a p fr m G).
      * rewrite get_set_other by assumption. apply HQ.
    + exists res. repeat split; auto.
      * intros k Hk. apply K'. now apply get_set_preserve.
      * intros q [<- | Hq]; [| now apply C'].
        apply K'. rewrite get_set_same by assumption. discriminate.
Qed.

Lemma sorted_map_fst (V : Type) (l : list (float * V)) :
  StronglySorted (key_le fst) l ->
  StronglySorted (key_le (fun x => x)) (map fst l).
Proof.
  induction 1 as [| x l S IH F]; cbn; constructor; [assumption |].
  rewrite Forall_map. exact F.
Qed.

Lemma finalize_loop_well_keyed (n : Z) (S P : Dict.t (Dict.t float)) :
  keys_not_nan S -> well_keyed P -> well_keyed (fst (finalize_loop n S P)).
Proof.
  revert P. induction S as [| [period power_map] S IH]; cbn; intros P K W;
    [assumption |].
  inversion K as [| ? ? Hk K']. subst.
  destruct (finalize_period n power_map); cbn; [| assumption].
  apply IH; [assumption | now apply well_keyed_set].
Qed.

(** The keys of [probs] are not NaN and differ from one another in a
    reachable aggregator. *)
Lemma reachable_probs_well_keyed (a : aggregator) :
  reachable a -> well_keyed (probs a).
Proof.
  induction 1 as [| a r Ha IH Hr | a n Ha IH].
  - apply well_keyed_nil.
  - exact IH.
  - destruct (reachable_inv a Ha) as (_ & S2 & _ & _).
    unfold finalize. destruct (n <=? 0)%Z; cbn; [exact IH |].
    pose proof (finalize_loop_well_keyed n (sums a) (probs a) S2 IH) as W.
    now destruct (finalize_loop n (sums a) (probs a)).
Qed.

(** When the keys of [probs] are not NaN and no map is empty, the loop over
    the periods ends, and gives every period the result of
    [percentiles_for_period], by ascending period. *)
Lemma percentiles_all_periods_ok (a : aggregator) (fr : list float) :
  nonempty_maps (probs a) -> well_keyed (probs a) ->
  exists res,
    percentiles_all_periods a fr = Return res /\
    StronglySorted (key_le (fun x => x)) (Dict.keys res) /\
    (forall k r, Dict.get res k = Some r ->
       percentiles_for_period a k fr = Return r) /\
    (forall period, In period (Dict.keys (probs a)) ->
       Dict.get res period <> None).
Proof.
  intros P1 (P2 & P3). unfold percentiles_all_periods.
  assert (KE : Forall (fun kv : float * Dict.t float => is_nan (fst kv) = false)
                 (probs a)).
  { unfold keys_not_nan, Dict.keys in P2. now rewrite Forall_map in P2. }
  destruct (all_periods_loop_ok a fr (py_sorted fst (probs a)) [])
    as (res & E & SS & Q & _ & C).
  - intros p m Hin. apply py_sorted_in in Hin.
    assert (Hn : is_nan p = false).
    { rewrite Forall_forall in KE. exact (KE (p, m) Hin). }
    split; [exact Hn |]. split; [now apply (P1 p) |].
    apply (get_distinct _ (probs a) p p m P3 Hin). now apply float_eqb_refl.
  - cbn. apply sorted_map_fst. now apply py_sorted_ascending.
  - intros k r H. discriminate.
  - exists res. split; [assumption |]. split; [assumption |].
    split; [assumption |].
    intros period Hin. apply C. unfold Dict.keys in Hin.
    apply in_map_iff in Hin. destruct Hin as (kv & <- & Hin).
    apply in_map. now apply (proj2 (py_sorted_in _ fst (probs a) kv)).
Qed.




(** ** Calling [finalize] again *)


Section SetAlgebra.
Variable V : Type.
Implicit Types (d : Dict.t V) (k : float) (v : V).



Lemma apply_sets_cons ops d k v :
  apply_sets ((k, v) :: ops) d = apply_sets ops (Dict.set d k v).
Proof. reflexivity. Qed.

Lemma apply_sets_preserve ops d k :
  Dict.get d k <> None -> Dict.get (apply_sets ops d) k <> None.
Proof.
  revert d. induction ops as [| [k0 v0] ops IH]; intros d H; [assumption |].
  rewrite apply_sets_cons. apply IH. now apply get_set_preserve.
Qed.




End SetAlgebra.









(** ** The walk over the sorted bins *)

Lemma reached_split (c : float) (targets : list float) :
  targets = fst (reached c targets) ++ snd (reached c targets).
Proof.
  induction targets as [| t ts IH]; cbn; [reflexivity |].
  destruct (t <=? c)%float; cbn; [now f_equal | reflexivity].
Qed.

Lemma reached_all (c : float) (targets : list float) :
  Forall (fun t => (t <=? c)%float = true) targets ->
  reached c targets = (targets, []).
Proof.
  induction 1 as [| t ts Ht Hts IH]; cbn; [reflexivity |].
  now rewrite Ht, IH.
Qed.

Lemma assign_targets_reached (c power : float) (targets : list float)
  (res : Dict.t float) :
  assign_targets c power targets res =
  (snd (reached c targets),
   apply_sets (map (fun t => (t, power)) (fst (reached c targets))) res).
Proof.
  revert res. induction targets as [| t ts IH]; cbn; intros res; [reflexivity |].
  destruct (t <=? c)%float; cbn; [apply IH | reflexivity].
Qed.

Lemma apply_sets_app (V : Type) (l1 l2 : list (float * V)) (d : Dict.t V) :
  apply_sets (l1 ++ l2) d = apply_sets l2 (apply_sets l1 d).
Proof. unfold apply_sets. apply fold_left_app. Qed.

Lemma walk_assignments (items : list (float * float)) (targets : list float)
  (c : float) (res : Dict.t float) :
  walk items targets c res = apply_sets (assignments items targets c) res.
Proof.
  revert targets c res. induction items as [| [power prob] rest IH];
    intros targets c res; [reflexivity |].
  cbn [walk assignments]. rewrite assign_targets_reached, apply_sets_app.
  apply IH.
Qed.

Lemma apply_sets_in (V : Type) (l : list (float * V)) (d : Dict.t V)
  (t k : float) (v : V) :
  In (t, v) l -> (t =? k)%float = true -> Dict.get (apply_sets l d) k <> None.
Proof.
  revert d. induction l as [| [t0 v0] l IH]; intros d Hin E; [contradiction |].
  rewrite apply_sets_cons. destruct Hin as [H | H].
  - injection H as -> ->. apply apply_sets_preserve.
    rewrite (get_set_eq _ d t k v E). discriminate.
  - now apply IH.
Qed.

(** Every value stored by a sequence of assignments is one of theirs. *)
Lemma apply_sets_value (V : Type) (l : list (float * V)) (k : float) (v : V) :
  Dict.get (apply_sets l []) k = Some v ->
  exists t, In (t, v) l /\ (t =? k)%float = true.
Proof.
  assert (G : forall d,
    Dict.get (apply_sets l d) k = Some v ->
    (exists t, In (t, v) l /\ (t =? k)%float = true) \/ Dict.get d k = Some v).
  { induction l as [| [t0 v0] l IH]; intros d H; [now right |].
    rewrite apply_sets_cons in H. destruct (IH _ H) as [(t & Hin & E) | G].
    - left. exists t. split; [now right | assumption].
    - destruct (t0 =? k)%float eqn:E.
      + rewrite (get_set_eq _ d t0 k v0 E) in G. injection G as ->.
        left. exists t0. split; [now left | assumption].
      + rewrite get_set_other in G by assumption. now right. }
  intros H. destruct (G [] H) as [? | ?]; [assumption | discriminate].
Qed.

Lemma assignments_cover (items : list (float * float)) (targets : list float)
  (c : float) :
  items <> [] ->
  Forall (fun t => (t <=? forced_total)%float = true) targets ->
  map fst (assignments items targets c) = targets.
Proof.
  revert targets c. induction items as [| [power prob] rest IH];
    intros targets c N H; [congruence |].
  cbn [assignments]. destruct rest as [| item rest].
  - rewrite (reached_all _ _ H). cbn [fst snd assignments].
    rewrite app_nil_r, map_map. cbn. apply map_id.
  - rewrite map_app, map_map. cbn [fst].
    rewrite map_id, IH; [symmetry; apply reached_split | discriminate |].
    rewrite (reached_split (c + prob)%float targets) in H.
    apply Forall_app in H. tauto.
Qed.

Lemma assignments_powers (items : list (float * float)) (targets : list float)
  (c : float) (t p : float) :
  In (t, p) (assignments items targets c) -> In p (map fst items).
Proof.
  revert targets c. induction items as [| [power prob] rest IH];
    intros targets c H; [contradiction |].
  cbn [assignments] in H. apply in_app_or in H. destruct H as [H | H].
  - apply in_map_iff in H. destruct H as (t' & E & _). injection E as _ <-.
    now left.
  - right. eapply IH. exact H.
Qed.

Lemma unit_below_forced_total (f : float) :
  (f <=? 1)%float = true -> (f <=? forced_total)%float = true.
Proof.
  intros H. apply (float_leb_trans f 1 forced_total H). reflexivity.
Qed.

Lemma assignments_cons (power prob : float) (item : float * float)
  (rest : list (float * float)) (targets : list float) (c : float) :
  assignments ((power, prob) :: item :: rest) targets c =
  map (fun t => (t, power)) (fst (reached (c + prob)%float targets))
  ++ assignments (item :: rest) (snd (reached (c + prob)%float targets))
       (c + prob)%float.
Proof. reflexivity. Qed.

Lemma assignments_one (items : list (float * float)) (c d : float) :
  items <> [] ->
  Forall (fun s => (1 <=? s)%float = false)
    (removelast (running_sums c (map snd items))) ->
  assignments items [1%float] c = [(1%float, last (map fst items) d)].
Proof.
  revert c. induction items as [| [power prob] rest IH]; intros c N H;
    [congruence |].
  destruct rest as [| item rest].
  - reflexivity.
  - rewrite assignments_cons.
    change (removelast (running_sums c (map snd ((power, prob) :: item :: rest))))
      with ((c + prob)%float
              :: removelast (running_sums (c + prob)%float (map snd (item :: rest))))
      in H.
    inversion H as [| ? ? H1 H2]. subst.
    cbn [reached]. rewrite H1. cbn [fst snd map app].
    rewrite (IH (c + prob)%float); [reflexivity | discriminate | assumption].
Qed.

Lemma sorted_last_is_max (A : Type) (key : A -> float) (l : list A) (d x : A) :
  StronglySorted (key_le key) l ->
  Forall (fun y => is_nan (key y) = false) l ->
  In x l -> key_le key x (last l d).
Proof.
  intros S. revert x. induction S as [| y l S IH F]; intros x N Hin;
    [contradiction |].
  inversion N as [| ? ? Ny Nl]. subst.
  destruct l as [| z l].
  - destruct Hin as [<- | []]. now apply float_leb_refl.
  - change (last (y :: z :: l) d) with (last (z :: l) d).
    destruct Hin as [<- | Hin]; [| now apply IH].
    rewrite Forall_forall in F. apply F.
    clear. revert z. induction l as [| w l IHl]; intros z; [now left |].
    right. apply IHl.
Qed.

Lemma last_in (A : Type) (l : list A) (d : A) : l <> [] -> In (last l d) l.
Proof.
  induction l as [| x [| y l] IH]; intros N; [congruence | now left |].
  right. apply IH. discriminate.
Qed.

Lemma valid_items_not_empty (power_map : Dict.t float) :
  (exists kv, In kv power_map /\ (epsilon <? snd kv)%float = true) ->
  py_sorted fst (valid_items power_map) <> [].
Proof.
  intros (kv & Hin & E) N.
  assert (H : In kv (py_sorted fst (valid_items power_map))).
  { apply py_sorted_in. unfold valid_items. apply filter_In. auto. }
  rewrite N in H. contradiction.
Qed.

Lemma valid_items_keys (power_map : Dict.t float) :
  keys_not_nan power_map -> keys_not_nan (valid_items power_map).
Proof.
  unfold keys_not_nan, Dict.keys, valid_items. rewrite !Forall_forall.
  intros H k Hin. apply in_map_iff in Hin. destruct Hin as (kv & <- & Hin).
  apply filter_In in Hin. apply H. apply in_map. tauto.
Qed.

(** C2, as the code has it: when the period has a bin above epsilon and every
    requested fraction lies in [0, 1], every requested fraction is a key of
    the result, mapped to the power of a bin above epsilon.  When moreover no
    power key of the period is NaN and the running sum does not reach [1.0]
    at a bin before the last, fraction [1.0] alone is mapped to the greatest
    power of a bin above epsilon. *)
Theorem every_fraction_is_assigned :
  forall (a : aggregator) (period : float) (power_map : Dict.t float)
         (fractions : list float),
    Dict.get (probs a) period = Some power_map ->
    (exists kv, In kv power_map /\ (epsilon <? snd kv)%float = true) ->
    Forall (fun f => (0 <=? f)%float = true /\ (f <=? 1)%float = true)
      fractions ->
    (exists res,
        percentiles_for_period a period fractions = Return res /\
        forall f, In f fractions ->
          exists power, Dict.get res f = Some power /\
                        In power (Dict.keys (valid_items power_map)))
    /\ (keys_not_nan power_map ->
        Forall (fun s => (1 <=? s)%float = false)
          (removelast
             (running_sums 0 (Dict.values (py_sorted fst (valid_items power_map))))) ->
        exists pmax,
          percentiles_for_period a period [1%float] = Return [(1%float, pmax)] /\
          In pmax (Dict.keys (valid_items power_map)) /\
          forall q, In q (Dict.keys (valid_items power_map)) ->
                    (q <=? pmax)%float = true).
Proof.
  intros a period power_map fractions G B F.
  pose proof (valid_items_not_empty power_map B) as NE.
  assert (PM : power_map <> []) by (destruct B as (kv & Hin & _); now destruct power_map).
  unfold percentiles_for_period, percentiles_of. rewrite G.
  destruct power_map as [| kv0 pm0] eqn:Epm; [congruence |].
  cbn [Dict.is_empty]. rewrite <- Epm in *. clear Epm kv0 pm0 PM.
  set (items := py_sorted fst (valid_items power_map)) in *.
  assert (KI : forall p, In p (map fst items) ->
                         In p (Dict.keys (valid_items power_map))).
  { intros p Hp. apply in_map_iff in Hp. destruct Hp as (kv & <- & Hin).
    apply in_map. unfold items in Hin. now apply py_sorted_in in Hin. }
  split.
  - eexists. split; [reflexivity |]. intros f Hf.
    rewrite walk_assignments.
    set (targets := py_sorted (fun x => x) fractions).
    assert (FT : Forall (fun t => (t <=? forced_total)%float = true) targets).
    { eapply Permutation_Forall; [symmetry; apply py_sorted_perm |].
      eapply Forall_impl; [| exact F]. intros t (_ & Ht).
      now apply unit_below_forced_total. }
    pose proof (assignments_cover items targets 0%float NE FT) as C.
    assert (Hin : In f (map fst (assignments items targets 0))).
    { rewrite C. now apply py_sorted_in. }
    apply in_map_iff in Hin. destruct Hin as ([t p] & E & Hin). cbn in E. subst t.
    assert (Nf : is_nan f = false).
    { rewrite Forall_forall in F. destruct (F f Hf) as (_ & Hf1).
      now apply float_leb_not_nan in Hf1. }
    pose proof (apply_sets_in _ _ [] f f p Hin (float_eqb_refl f Nf)) as Hg.
    destruct (Dict.get (apply_sets (assignments items targets 0) []) f)
      as [power |] eqn:Eg; [| congruence].
    exists power. split; [reflexivity |].
    destruct (apply_sets_value _ _ _ _ Eg) as (t & Hin' & _).
    apply KI. eapply assignments_powers. exact Hin'.
  - intros KN RS. exists (last (map fst items) 0%float).
    split; [| split].
    + rewrite walk_assignments. cbn [py_sorted fold_right insert_sorted].
      rewrite (assignments_one items 0 0 NE RS). reflexivity.
    + apply KI. apply last_in. intros E. apply map_eq_nil in E. contradiction.
    + intros q Hq.
      assert (KV : Forall (fun kv => is_nan (fst kv) = false) items).
      { eapply Permutation_Forall; [symmetry; apply py_sorted_perm |].
        pose proof (valid_items_keys power_map KN) as K.
        unfold keys_not_nan, Dict.keys in K. now rewrite Forall_map in K. }
      apply in_map_iff in Hq. destruct Hq as (kv & <- & Hin).
      apply (proj2 (py_sorted_in _ fst (valid_items power_map) kv)) in Hin.
      fold items in Hin.
      pose proof (sorted_last_is_max _ fst items (0%float, 0%float) kv
                    (py_sorted_ascending _ fst _
                       ltac:(eapply Permutation_Forall;
                             [apply py_sorted_perm | exact KV]))
                    KV Hin) as L.
      unfold key_le in L.
      replace (last (map fst items) 0%float)
        with (fst (last items (0%float, 0%float))); [exact L |].
      clear. induction items as [| x [| y l] IH]; [reflexivity | reflexivity |].
      exact IH.
Qed.

(** ** Percentiles grow with the fraction *)

Section SortedLists.
Variable A : Type.
Variable R : A -> A -> Prop.

Lemma sorted_app (l1 l2 : list A) :
  StronglySorted R l1 -> StronglySorted R l2 ->
  (forall x y, In x l1 -> In y l2 -> R x y) ->
  StronglySorted R (l1 ++ l2).
Proof.
  intros S1 S2 H. induction S1 as [| x l1 S1 IH F]; cbn; [assumption |].
  constructor.
  - apply IH. intros a b Ha Hb. apply H; [now right | assumption].
  - apply Forall_app. split; [assumption |].
    apply Forall_forall. intros y Hy. apply H; [now left | assumption].
Qed.

Lemma sorted_app_inv (l1 l2 : list A) :
  StronglySorted R (l1 ++ l2) ->
  StronglySorted R l1 /\ StronglySorted R l2 /\
  (forall x y, In x l1 -> In y l2 -> R x y).
Proof.
  induction l1 as [| a l1 IH]; cbn; intros S.
  - repeat split; [constructor | assumption | intros x y []].
  - inversion S as [| ? ? S' F]. subst.
    destruct (IH S') as (S1 & S2 & H). apply Forall_app in F.
    destruct F as (F1 & F2). repeat split; [now constructor | assumption |].
    intros x y [<- | Hx] Hy; [| now apply H].
    rewrite Forall_forall in F2. now apply F2.
Qed.

Lemma two_splits (l1 l2 m1 m2 : list A) (x y : A) :
  l1 ++ x :: l2 = m1 ++ y :: m2 ->
  (x = y /\ l2 = m2) \/ In y l2 \/ In x m2.
Proof.
  revert m1. induction l1 as [| a l1 IH]; intros [| b m1] E; cbn in E;
    injection E as E1 E2; subst.
  - left. auto.
  - right. left. apply in_or_app. right. now left.
  - right. right. apply in_or_app. right. now left.
  - now apply (IH m1).
Qed.

End SortedLists.

Lemma assignments_targets (items : list (float * float)) (targets : list float)
  (c : float) (t p : float) :
  In (t, p) (assignments items targets c) -> In t targets.
Proof.
  revert targets c. induction items as [| [power prob] rest IH];
    intros targets c H; [contradiction |].
  cbn [assignments] in H. apply in_app_or in H.
  match type of H with
  | In _ (map _ (fst (reached ?c' _))) \/ _ =>
      rewrite (reached_split c' targets)
  end.
  apply in_or_app. destruct H as [H | H].
  - left. apply in_map_iff in H. destruct H as (t' & E & Hin).
    now injection E as <- _.
  - right. eapply IH. exact H.
Qed.

Lemma assignments_sorted (items : list (float * float)) (targets : list float)
  (c : float) :
  StronglySorted (key_le fst) items ->
  Forall (fun kv => is_nan (fst kv) = false) items ->
  StronglySorted (key_le (fun x => x)) targets ->
  StronglySorted pair_le (assignments items targets c).
Proof.
  intros SI. revert targets c.
  induction SI as [| [power prob] rest SI IH F]; intros targets c N ST;
    [constructor |].
  inversion N as [| ? ? Np Nr]. subst. cbn [fst] in Np.
  cbn [assignments].
  match goal with
  | |- StronglySorted _ (map _ (fst (reached ?c' _)) ++ _) =>
      set (c1 := c'); rewrite (reached_split c1 targets) in ST
  end.
  apply sorted_app_inv in ST. destruct ST as (SA & SB & AB).
  apply sorted_app.
  - clear - SA Np. induction SA as [| t l SA IHl Ft]; cbn; constructor; auto.
    rewrite Forall_map. eapply Forall_impl; [| exact Ft].
    intros t' Ht. split; [exact Ht | now apply float_leb_refl].
  - now apply IH.
  - intros [t p] [t' p'] H1 H2.
    apply in_map_iff in H1. destruct H1 as (t0 & E & H1). injection E as -> <-.
    split; cbn [fst snd].
    + apply (AB t t' H1). eapply assignments_targets. exact H2.
    + apply assignments_powers in H2. apply in_map_iff in H2.
      destruct H2 as (kv & <- & H2).
      rewrite Forall_forall in F. exact (F kv H2).
Qed.

Lemma get_apply_sets_last (V : Type) (l : list (float * V)) (d : Dict.t V)
  (k : float) (v : V) :
  Dict.get (apply_sets l d) k = Some v ->
  (exists l1 t l2, l = l1 ++ (t, v) :: l2 /\ (t =? k)%float = true /\
                   touches k l2 = false)
  \/ (touches k l = false /\ Dict.get d k = Some v).
Proof.
  revert d. induction l as [| [t0 v0] l IH]; intros d H; [now right |].
  rewrite apply_sets_cons in H. destruct (IH _ H) as [(l1 & t & l2 & E & Et & T) | (T & G)].
  - left. exists ((t0, v0) :: l1), t, l2. subst. auto.
  - destruct (t0 =? k)%float eqn:E.
    + rewrite (get_set_eq _ d t0 k v0 E) in G. injection G as ->.
      left. exists [], t0, l. auto.
    + rewrite get_set_other in G by assumption. right. split; [| assumption].
      cbn. now rewrite E.
Qed.

Lemma touches_in (V : Type) (l : list (float * V)) (k t : float) (v : V) :
  In (t, v) l -> (t =? k)%float = true -> touches k l = true.
Proof.
  intros Hin E. unfold touches. apply existsb_exists. exists (t, v). auto.
Qed.

(** C7, as the code has it: for one period, whose power bins are not NaN,
    and requested fractions that are not NaN, the result grows with the fraction: when two keys
    [f1 <= f2] of the result are mapped to [p1] and [p2], then [p1 <= p2]. *)
Theorem percentiles_monotone :
  forall (a : aggregator) (period : float) (power_map : Dict.t float)
         (fractions : list float) (res : Dict.t float) (f1 f2 p1 p2 : float),
    Dict.get (probs a) period = Some power_map ->
    keys_not_nan power_map ->
    Forall (fun f => is_nan f = false) fractions ->
    percentiles_for_period a period fractions = Return res ->
    Dict.get res f1 = Some p1 ->
    Dict.get res f2 = Some p2 ->
    (f1 <=? f2)%float = true ->
    (p1 <=? p2)%float = true.
Proof.
  intros a period power_map fractions res f1 f2 p1 p2 G KN FN E G1 G2 L.
  unfold percentiles_for_period, percentiles_of in E. rewrite G in E.
  destruct (Dict.is_empty power_map); [discriminate |].
  injection E as <-. rewrite walk_assignments in G1, G2.
  set (items := py_sorted fst (valid_items power_map)) in *.
  set (targets := py_sorted (fun x => x) fractions) in *.
  assert (KV : Forall (fun kv => is_nan (fst kv) = false) items).
  { eapply Permutation_Forall; [symmetry; apply py_sorted_perm |].
    pose proof (valid_items_keys power_map KN) as K.
    unfold keys_not_nan, Dict.keys in K. now rewrite Forall_map in K. }
  assert (SI : StronglySorted (key_le fst) items).
  { apply py_sorted_ascending.
    eapply Permutation_Forall; [apply py_sorted_perm | exact KV]. }
  assert (ST : StronglySorted (key_le (fun x => x)) targets).
  { now apply py_sorted_ascending. }
  pose proof (assignments_sorted items targets 0 SI KV ST) as SA.
  destruct (get_apply_sets_last _ _ _ _ _ G1)
    as [(l1 & t1 & l2 & E1 & Et1 & T1) | (_ & ?)]; [| discriminate].
  destruct (get_apply_sets_last _ _ _ _ _ G2)
    as [(m1 & t2 & m2 & E2 & Et2 & T2) | (_ & ?)]; [| discriminate].
  assert (Np1 : is_nan p1 = false).
  { assert (H : In (t1, p1) (assignments items targets 0))
      by (rewrite E1; apply in_or_app; right; now left).
    apply assignments_powers in H. apply in_map_iff in H.
    destruct H as (kv & <- & H). rewrite Forall_forall in KV. now apply KV. }
  pose proof SA as SA1. rewrite E1 in SA1. apply sorted_app_inv in SA1.
  destruct SA1 as (_ & SA1 & _). inversion SA1 as [| ? ? _ F1]. subst.
  pose proof SA as SA2. rewrite E2 in SA2. apply sorted_app_inv in SA2.
  destruct SA2 as (_ & SA2 & _). inversion SA2 as [| ? ? _ F2]. subst.
  rewrite Forall_forall in F1, F2.
  rewrite E1 in E2. destruct (two_splits _ _ _ _ _ _ _ E2) as [(E & _) | [H | H]].
  - injection E as _ <-. now apply float_leb_refl.
  - exact (proj2 (F1 _ H)).
  - exfalso. destruct (F2 _ H) as (L21 & _). cbn [fst] in L21.
    assert (L12 : (t1 <=? t2)%float = true).
    { apply (float_leb_trans t1 f1 t2); [now apply float_eqb_leb |].
      apply (float_leb_trans f1 f2 t2 L).
      now apply float_eqb_leb, float_eqb_sym. }
    pose proof (float_leb_antisym _ _ L12 L21) as E12.
    pose proof (float_eqb_trans _ _ _ E12 Et2) as E1f2.
    rewrite (touches_in _ _ _ _ _ H E1f2) in T2. discriminate.
Qed.

Lemma percentiles_monotone_witness :
  let a := fst (finalize
                  (add_record
                     (add_record
                        (add_record new_aggregator (mkPdfRecord (-1) (-150) 0.6))
                        (mkPdfRecord (-1) (-150) 0.4))
                     (mkPdfRecord (-1) (-140) 0.2)) 2) in
  percentiles_for_period a (-1) [1; 0.5]%float
  = Return [(0.5, -150); (1, -140)]%float /\
  (-150 <=? -140)%float = true.
Proof.
  intros a. split; [reflexivity |].
  apply (percentiles_monotone a (-1)%float
           [(-150, 0x1.aaaaaaaaaaaabp-1); (-140, 0x1.5555555555556p-3)]%float
           [1; 0.5]%float [(0.5, -150); (1, -140)]%float 0.5 1 (-150) (-140)).
  - reflexivity.
  - repeat constructor.
  - repeat constructor.
  - reflexivity.
  - reflexivity.
  - reflexivity.
  - reflexivity.
Defined.

(** C7 fails for a bin whose power is NaN, which [parse] yields: with the
    bins [-120] of mass [0.6] and NaN of mass [0.4], fraction [0.6] is
    answered [-120] and fraction [1.0] is answered NaN, and [-120 <= nan]
    does not hold. *)
Lemma nan_power_breaks_monotonicity :
  let a := fst (finalize
                  (feed [mkPdfRecord (-1) (-120) 0.6;
                         mkPdfRecord (-1) nan 0.4]) 1) in
  parse "-1 nan 0.4" = Some (mkPdfRecord (-1) nan 0.4)
  /\ exists res,
       percentiles_for_period a (-1) [0.6; 1]%float = Return res
       /\ Dict.get res 0.6 = Some (-120)%float
       /\ Dict.get res 1 = Some nan
       /\ (0.6 <=? 1)%float = true
       /\ (-120 <=? nan)%float = false.
Proof.
  cbv zeta. split; [reflexivity |].
  eexists. split; [vm_compute; reflexivity |].
  repeat split; reflexivity.
Qed.

Lemma every_fraction_is_assigned_witness :
  let a := fst (finalize
                  (add_record
                     (add_record
                        (add_record new_aggregator (mkPdfRecord (-1) (-150) 0.6))
                        (mkPdfRecord (-1) (-150) 0.4))
                     (mkPdfRecord (-1) (-140) 0.2)) 2) in
  (exists res,
      percentiles_for_period a (-1) [1; 0.5]%float = Return res /\
      forall f, In f [1; 0.5]%float ->
        exists power, Dict.get res f = Some power /\
          In power
            (Dict.keys
               (valid_items
                  [(-150, 0x1.aaaaaaaaaaaabp-1); (-140, 0x1.5555555555556p-3)]%float)))
  /\ exists pmax,
       percentiles_for_period a (-1) [1]%float = Return [(1, pmax)]%float /\
       (-150 <=? pmax)%float = true.
Proof.
  intros a.
  assert (G : Dict.get (probs a) (-1)%float =
              Some [(-150, 0x1.aaaaaaaaaaaabp-1); (-140, 0x1.5555555555556p-3)]%float)
    by reflexivity.
  assert (B : exists kv,
             In kv [(-150, 0x1.aaaaaaaaaaaabp-1); (-140, 0x1.5555555555556p-3)]%float /\
             (epsilon <? snd kv)%float = true).
  { exists (-150, 0x1.aaaaaaaaaaaabp-1)%float. split; [now left | reflexivity]. }
  assert (F : Forall (fun f => (0 <=? f)%float = true /\ (f <=? 1)%float = true)
                [1; 0.5]%float).
  { repeat constructor. }
  destruct (every_fraction_is_assigned a (-1)%float _ [1; 0.5]%float G B F)
    as (H1 & H2).
  split; [exact H1 |].
  destruct H2 as (pmax & E & _ & M).
  - repeat constructor.
  - repeat constructor.
  - exists pmax. split; [exact E |]. apply M. now left.
Defined.

(** C2 fails for two bins of mass [5e-324]: their total is [1e-323], whose
    inverse is infinite, so both bins are finalized to infinity; the running
    sum reaches [1.0] at the lower bin, which is returned for fraction [1.0]
    although the bin at [-140] is above epsilon too. *)
Lemma fraction_one_below_max_bin :
  let a := fst (finalize
                  (add_record
                     (add_record new_aggregator
                        (mkPdfRecord (-1) (-150) 0x1p-1074))
                     (mkPdfRecord (-1) (-140) 0x1p-1074)) 1) in
  reachable a /\
  Dict.get (probs a) (-1)%float
  = Some [(-150, infinity); (-140, infinity)]%float /\
  (epsilon <? infinity)%float = true /\
  percentiles_for_period a (-1) [1]%float = Return [(1, -150)]%float /\
  (-150 <? -140)%float = true.
Proof.
  intros a. split; [| repeat split; reflexivity].
  apply reach_finalize. apply reach_add.
  - apply reach_add; [apply reach_new |]. repeat split; reflexivity.
  - repeat split; reflexivity.
Qed.

(** ** Feeding samples in some order *)

Lemma lookup_eqb (d : Dict.t (Dict.t float)) (p p' w w' : float) :
  (p =? p')%float = true -> (w =? w')%float = true ->
  lookup d p w = lookup d p' w'.
Proof.
  intros Ep Ew. unfold lookup. rewrite (get_eqb_compat _ d p p' Ep).
  destruct (Dict.get d p'); [| reflexivity]. now apply get_eqb_compat.
Qed.

Lemma lookup_add_record (a : aggregator) (r : PdfRecord) (p w : float) :
  lookup (sums (add_record a r)) p w =
  if in_bin p w r then bump (lookup (sums a) p w) (probability r)
  else lookup (sums a) p w.
Proof.
  unfold in_bin, add_record, lookup. cbn [sums].
  destruct (period_log10 r =? p)%float eqn:Ep; cbn [andb].
  - rewrite (get_set_eq _ (sums a) _ _ _ Ep).
    rewrite <- (get_eqb_compat _ (sums a) _ _ Ep).
    destruct (power_db r =? w)%float eqn:Ew.
    + rewrite (get_set_eq _ _ _ _ _ Ew). unfold bump. f_equal. f_equal.
      destruct (Dict.get (sums a) (period_log10 r)) as [m |]; cbn.
      * now rewrite (get_eqb_compat _ m _ _ Ew).
      * reflexivity.
    + rewrite get_set_other by assumption.
      now destruct (Dict.get (sums a) (period_log10 r)).
  - now rewrite get_set_other.
Qed.

Lemma lookup_fold (rs : list PdfRecord) (a : aggregator) (p w : float) :
  lookup (sums (fold_left add_record rs a)) p w =
  fold_left bump (map probability (filter (in_bin p w) rs))
    (lookup (sums a) p w).
Proof.
  revert a. induction rs as [| r rs IH]; intros a; [reflexivity |].
  cbn [fold_left filter]. rewrite IH, lookup_add_record.
  destruct (in_bin p w r); reflexivity.
Qed.

Lemma fold_bump (xs : list float) (v : float) :
  fold_left bump xs (Some v) = Some (fold_left PrimFloat.add xs v).
Proof.
  revert v. induction xs as [| x xs IH]; intros v; [reflexivity |].
  cbn [fold_left]. unfold bump at 2. apply IH.
Qed.

Lemma lookup_feed (rs : list PdfRecord) (p w : float) :
  lookup (sums (feed rs)) p w = bin_sum p w rs.
Proof.
  unfold feed, bin_sum. rewrite lookup_fold. cbn [new_aggregator sums lookup Dict.get].
  destruct (filter (in_bin p w) rs) as [| r l]; [reflexivity |].
  cbn [map fold_left]. unfold bump at 2. apply fold_bump.
Qed.

(** C5, as the code has it: [add_record] is a total function; after feeding a
    list of samples to a fresh aggregator, [sums[period][power]] exists exactly
    when a sample fell in that bin, and is the binary64 sum of the
    probabilities of the samples of that bin, added from [0.0] in arrival
    order.  Hence two arrival orders that keep the samples of every bin in
    the same relative order give the same sums. *)
Theorem sums_follow_arrival_order_within_a_bin :
  (forall (rs : list PdfRecord) (period power : float),
      lookup (sums (feed rs)) period power = bin_sum period power rs)
  /\ (forall rs rs' : list PdfRecord,
        (forall period power,
            filter (in_bin period power) rs = filter (in_bin period power) rs') ->
        forall period power,
          lookup (sums (feed rs)) period power
          = lookup (sums (feed rs')) period power).
Proof.
  split.
  - apply lookup_feed.
  - intros rs rs' H period power. rewrite !lookup_feed. unfold bin_sum.
    now rewrite H.
Qed.

Lemma sums_follow_arrival_order_within_a_bin_witness :
  let r1 := mkPdfRecord (-1) (-150) 0.5 in
  let r2 := mkPdfRecord (-1) (-140) 0.25 in
  let r3 := mkPdfRecord (-1) (-150) 0.125 in
  lookup (sums (feed [r1; r2; r3])) (-1) (-150)
  = lookup (sums (feed [r2; r1; r3])) (-1) (-150).
Proof.
  intros r1 r2 r3.
  apply (proj2 sums_follow_arrival_order_within_a_bin [r1; r2; r3] [r2; r1; r3]).
  intros period power. unfold in_bin, r1, r2, r3. cbn [filter period_log10 power_db].
  destruct ((-1) =? period)%float; cbn [andb]; [| reflexivity].
  destruct ((-150) =? power)%float eqn:E1, ((-140) =? power)%float eqn:E2;
    try reflexivity.
  apply float_eqb_sym in E2. pose proof (float_eqb_trans _ _ _ E1 E2) as E.
  discriminate.
Defined.

(** C5 fails for three samples of one bin with probabilities [0.1], [0.2] and
    [0.3]: fed in that order the bin sums to [0.6000000000000001], fed in
    the opposite order it sums to [0.6]. *)
Lemma add_record_order_changes_sums :
  let r1 := mkPdfRecord (-1) (-150) 0x1.999999999999ap-4 in
  let r2 := mkPdfRecord (-1) (-150) 0x1.999999999999ap-3 in
  let r3 := mkPdfRecord (-1) (-150) 0x1.3333333333333p-2 in
  Permutation [r1; r2; r3] [r3; r2; r1] /\
  finite_record r1 /\ finite_record r2 /\ finite_record r3 /\
  sums (feed [r1; r2; r3]) = [((-1), [((-150), 0x1.3333333333334p-1)])]%float /\
  sums (feed [r3; r2; r1]) = [((-1), [((-150), 0x1.3333333333333p-1)])]%float /\
  (0x1.3333333333334p-1 =? 0x1.3333333333333p-1)%float = false.
Proof.
  intros r1 r2 r3. split.
  - apply Permutation_trans with [r2; r3; r1].
    + apply Permutation_trans with [r2; r1; r3].
      * apply perm_swap.
      * apply perm_skip. apply perm_swap.
    + apply perm_swap.
  - repeat split; reflexivity.
Qed.

(** ** The line parser *)

Lemma split_from_tokens (cur s : list ascii) :
  no_space cur ->
  Forall (fun t => t <> [] /\ no_space t) (split_from cur s).
Proof.
  revert cur. induction s as [| c rest IH]; intros cur H; cbn.
  - destruct cur as [| c0 cur]; constructor; [| constructor].
    split.
    + intros E. apply (f_equal (@List.length ascii)) in E.
      rewrite length_rev in E. discriminate.
    + unfold no_space. apply Forall_rev. exact H.
  - destruct (is_space c) eqn:E.
    + destruct cur as [| c0 cur]; [apply IH; constructor |].
      constructor; [| apply IH; constructor].
      split.
      * intros E'. apply (f_equal (@List.length ascii)) in E'.
        rewrite length_rev in E'. discriminate.
      * unfold no_space. apply Forall_rev. exact H.
    + apply IH. now constructor.
Qed.

(** C6, as the code has it: [parse] returns a record exactly when the line has
    at least three tokens and [float] accepts each of the first three, and
    the record holds their values in order; otherwise it returns [None].  The
    tokens are the runs of the line without white space. *)
Theorem parse_returns_record_iff :
  forall line : string,
    Forall (fun t => t <> [] /\ no_space t) (py_split line)
    /\ (forall r,
          parse line = Some r <->
          exists t0 t1 t2 rest,
            py_split line = t0 :: t1 :: t2 :: rest /\
            py_float t0 = Some (period_log10 r) /\
            py_float t1 = Some (power_db r) /\
            py_float t2 = Some (probability r))
    /\ (parse line = None <->
        (List.length (py_split line) < 3)%nat \/
        exists t0 t1 t2 rest,
          py_split line = t0 :: t1 :: t2 :: rest /\
          (py_float t0 = None \/ py_float t1 = None \/ py_float t2 = None)).
Proof.
  intros line. split; [apply split_from_tokens; constructor |].
  unfold parse. destruct (py_split line) as [| t0 [| t1 [| t2 rest]]] eqn:E;
    cbn [List.length Nat.ltb Nat.leb].
  - split; [intros r | ]; split; try discriminate; auto with arith.
    intros (? & ? & ? & ? & H & _). discriminate.
  - split; [intros r | ]; split; try discriminate; auto with arith.
    intros (? & ? & ? & ? & H & _). discriminate.
  - split; [intros r | ]; split; try discriminate; auto with arith.
    intros (? & ? & ? & ? & H & _). discriminate.
  - split.
    + intros r. split.
      * destruct (py_float t0) as [a |] eqn:E0; [| discriminate].
        destruct (py_float t1) as [b |] eqn:E1; [| discriminate].
        destruct (py_float t2) as [c |] eqn:E2; [| discriminate].
        intros H. injection H as <-. exists t0, t1, t2, rest. auto.
      * intros (u0 & u1 & u2 & rest' & H & H0 & H1 & H2).
        injection H as <- <- <- <-. rewrite H0, H1, H2. now destruct r.
    + split.
      * intros H. right. exists t0, t1, t2, rest. split; [reflexivity |].
        destruct (py_float t0); [| tauto]. destruct (py_float t1); [| tauto].
        destruct (py_float t2); [discriminate | tauto].
      * intros [H | (u0 & u1 & u2 & rest' & H & H0)]; [cbn in H; lia |].
        injection H as <- <- <- <-.
        destruct H0 as [-> | [-> | ->]]; [reflexivity | |].
        -- now destruct (py_float t0).
        -- now destruct (py_float t0), (py_float t1).
Qed.

Lemma parse_returns_record_iff_witness :
  parse "0.5 -150.0 0.25" = Some (mkPdfRecord 0.5 (-150) 0.25).
Proof.
  apply (proj1 (proj2 (parse_returns_record_iff "0.5 -150.0 0.25"))).
  exists (list_ascii_of_string "0.5"), (list_ascii_of_string "-150.0"),
    (list_ascii_of_string "0.25"), [].
  repeat split; vm_compute; reflexivity.
Defined.

(** C6 fails for the line ["nan inf 1e999"]: [float] accepts the three tokens
    and the record that [parse] returns has no finite field. *)
Lemma parse_returns_non_finite_fields :
  parse "nan inf 1e999" = Some (mkPdfRecord nan infinity infinity) /\
  is_finite nan = false /\ is_finite infinity = false.
Proof. repeat split; vm_compute; reflexivity. Qed.

(** * Further properties of the code *)

(** ** What a percentile answer can be *)

(** X1: every entry of the result of [percentiles_for_period] maps a
    requested fraction to the power of a bin of that period whose probability
    is above epsilon. *)
Theorem percentile_answers_are_bins_above_epsilon :
  forall (a : aggregator) (period : float) (power_map : Dict.t float)
         (fractions : list float) (res : Dict.t float) (f power : float),
    Dict.get (probs a) period = Some power_map ->
    percentiles_for_period a period fractions = Return res ->
    Dict.get res f = Some power ->
    (exists prob, In (power, prob) power_map /\ (epsilon <? prob)%float = true)
    /\ (exists t, In t fractions /\ (t =? f)%float = true).
Proof.
  intros a period power_map fractions res f power G E Gf.
  unfold percentiles_for_period, percentiles_of in E. rewrite G in E.
  destruct (Dict.is_empty power_map); [discriminate |].
  injection E as <-. rewrite walk_assignments in Gf.
  destruct (apply_sets_value _ _ _ _ Gf) as (t & Hin & Et).
  split.
  - apply assignments_powers in Hin. apply in_map_iff in Hin.
    destruct Hin as ([p prob] & Ep & Hin). cbn in Ep. subst p.
    apply py_sorted_in in Hin. unfold valid_items in Hin.
    apply filter_In in Hin. exists prob. exact Hin.
  - exists t. split; [| exact Et].
    apply assignments_targets in Hin. now apply py_sorted_in in Hin.
Qed.

Lemma percentile_answers_are_bins_above_epsilon_witness :
  let a := fst (finalize
                  (add_record
                     (add_record new_aggregator (mkPdfRecord (-1) (-150) 0.5))
                     (mkPdfRecord (-1) (-140) 0)) 1) in
  exists prob, In ((-150)%float, prob) [(-150, 1); (-140, 0)]%float /\
               (epsilon <? prob)%float = true.
Proof.
  intros a.
  apply (percentile_answers_are_bins_above_epsilon a (-1)%float
           [(-150, 1); (-140, 0)]%float [1]%float [(1, -150)]%float 1 (-150));
    reflexivity.
Defined.

(** ** The lowest bin *)

Lemma add_zero_left (x : float) :
  (epsilon <? x)%float = true -> (0 + x)%float = x.
Proof.
  intros H. apply Prim2SF_inj. rewrite add_spec.
  change (Prim2SF 0) with (S754_zero false).
  apply ltb_fkey in H. destruct H as (_ & Hn & L).
  rewrite is_nan_spec in Hn. unfold fkey in L.
  destruct (Prim2SF x) as [s | s | | s m e]; try reflexivity; try discriminate.
Qed.

Lemma above_epsilon_nonneg (x : float) :
  (epsilon <? x)%float = true -> (0 <=? x)%float = true.
Proof.
  intros H. apply float_ltb_leb.
  apply (float_leb_ltb_trans 0 epsilon x); [reflexivity | exact H].
Qed.

Lemma assignments_no_target (items : list (float * float)) (c : float) :
  assignments items [] c = [].
Proof.
  revert c. induction items as [| [power prob] rest IH]; intros c;
    [reflexivity |].
  cbn [assignments reached fst snd map app]. apply IH.
Qed.

Lemma sorted_head_is_min (A : Type) (key : A -> float) (x : A) (l : list A)
  (y : A) :
  StronglySorted (key_le key) (x :: l) ->
  is_nan (key x) = false ->
  In y (x :: l) -> key_le key x y.
Proof.
  intros S N [<- | Hin].
  - now apply float_leb_refl.
  - inversion S as [| ? ? _ F]. subst. rewrite Forall_forall in F. now apply F.
Qed.

(** X2: when the power bins of the period are not NaN and one of them is
    above epsilon, fraction [0.0] alone is answered by the lowest bin above
    epsilon. *)
Theorem fraction_zero_is_lowest_bin :
  forall (a : aggregator) (period : float) (power_map : Dict.t float),
    Dict.get (probs a) period = Some power_map ->
    keys_not_nan power_map ->
    (exists kv, In kv power_map /\ (epsilon <? snd kv)%float = true) ->
    exists pmin,
      percentiles_for_period a period [0%float] = Return [(0%float, pmin)] /\
      In pmin (Dict.keys (valid_items power_map)) /\
      forall q, In q (Dict.keys (valid_items power_map)) ->
                (pmin <=? q)%float = true.
Proof.
  intros a period power_map G KN B.
  pose proof (valid_items_not_empty power_map B) as NE.
  assert (PM : Dict.is_empty power_map = false).
  { destruct B as (kv & Hin & _). now destruct power_map. }
  unfold percentiles_for_period, percentiles_of. rewrite G, PM, walk_assignments.
  cbn [py_sorted fold_right insert_sorted].
  assert (KV : Forall (fun kv => is_nan (fst kv) = false)
                 (py_sorted fst (valid_items power_map))).
  { eapply Permutation_Forall; [symmetry; apply py_sorted_perm |].
    pose proof (valid_items_keys power_map KN) as K.
    unfold keys_not_nan, Dict.keys in K. now rewrite Forall_map in K. }
  assert (SI : StronglySorted (key_le fst)
                 (py_sorted fst (valid_items power_map))).
  { apply py_sorted_ascending.
    eapply Permutation_Forall; [apply py_sorted_perm | exact KV]. }
  assert (AE : Forall (fun kv => (epsilon <? snd kv)%float = true)
                 (py_sorted fst (valid_items power_map))).
  { apply Forall_forall. intros kv Hin. apply py_sorted_in in Hin.
    unfold valid_items in Hin. apply filter_In in Hin. tauto. }
  assert (IN : forall kv, In kv (py_sorted fst (valid_items power_map)) ->
                          In (fst kv) (Dict.keys (valid_items power_map))).
  { intros kv Hin. apply in_map. now apply py_sorted_in in Hin. }
  assert (OUT : forall kv, In kv (valid_items power_map) ->
                           In kv (py_sorted fst (valid_items power_map))).
  { intros kv Hin. now apply py_sorted_in. }
  destruct (py_sorted fst (valid_items power_map)) as [| [power prob] rest];
    [congruence |].
  exists power. split; [| split].
  - inversion AE as [| ? ? Hp _]. subst. cbn [snd] in Hp.
    assert (R : forall c, (0 <=? c)%float = true ->
                          reached c [0%float] = ([0%float], [])).
    { intros c Hc. cbn [reached]. now rewrite Hc. }
    cbn [assignments]. rewrite (add_zero_left prob Hp).
    destruct rest as [| item rest'].
    + rewrite R by reflexivity. reflexivity.
    + rewrite R by (now apply above_epsilon_nonneg).
      cbn [fst snd map app]. rewrite assignments_no_target. reflexivity.
  - apply (IN (power, prob)). now left.
  - intros q Hq. apply in_map_iff in Hq. destruct Hq as (kv & <- & Hin).
    inversion KV as [| ? ? Np _]. subst.
    exact (sorted_head_is_min _ fst (power, prob) rest kv SI Np (OUT kv Hin)).
Qed.

Lemma fraction_zero_is_lowest_bin_witness :
  let a := fst (finalize
                  (add_record
                     (add_record new_aggregator (mkPdfRecord (-1) (-140) 0.5))
                     (mkPdfRecord (-1) (-150) 0.5)) 1) in
  exists pmin,
    percentiles_for_period a (-1) [0%float] = Return [(0%float, pmin)] /\
    (pmin <=? -150)%float = true.
Proof.
  intros a.
  destruct (fraction_zero_is_lowest_bin a (-1)%float
              [(-140, 0.5); (-150, 0.5)]%float) as (pmin & E & _ & M).
  - reflexivity.
  - repeat constructor.
  - exists (-140, 0.5)%float. split; [now left | reflexivity].
  - exists pmin. split; [exact E |]. apply M. right. now left.
Defined.

(** ** One sample, one bin *)

(** X3: [add_record] leaves [probs] as it is, adds the probability of the
    sample to the sum of its own bin (created at [0.0] when new), and leaves
    the sum of every other bin, present or not, as it was. *)
Theorem add_record_updates_its_bin :
  forall (a : aggregator) (r : PdfRecord),
    probs (add_record a r) = probs a
    /\ (is_nan (period_log10 r) = false -> is_nan (power_db r) = false ->
        lookup (sums (add_record a r)) (period_log10 r) (power_db r)
        = Some (match lookup (sums a) (period_log10 r) (power_db r) with
                | None => 0
                | Some v => v
                end + probability r)%float)
    /\ (forall period power,
          in_bin period power r = false ->
          lookup (sums (add_record a r)) period power
          = lookup (sums a) period power).
Proof.
  intros a r. split; [reflexivity |]. split.
  - intros Hp Hw. rewrite lookup_add_record. unfold in_bin.
    rewrite !float_eqb_refl by assumption. reflexivity.
  - intros period power H. rewrite lookup_add_record. now rewrite H.
Qed.

Lemma add_record_updates_its_bin_witness :
  let a := add_record new_aggregator (mkPdfRecord (-1) (-150) 0.5) in
  let r := mkPdfRecord (-1) (-150) 0.25 in
  lookup (sums (add_record a r)) (-1) (-150) = Some 0.75%float /\
  lookup (sums (add_record a r)) (-1) (-140) = lookup (sums a) (-1) (-140).
Proof.
  intros a r.
  destruct (add_record_updates_its_bin a r) as (_ & H1 & H2). split.
  - apply H1; reflexivity.
  - apply H2. reflexivity.
Defined.

(** ** What [finalize] computes *)

(** X4: on an aggregator built from well-formed samples, [finalize] with a
    positive file count that converts to a float ends without an exception,
    leaves the running sums as they are, and gives every period of [sums] a
    probability map with the same power bins in the same order: each sum
    divided by the file count, then the whole map renormalized. *)
Theorem finalize_normalizes_every_period :
  forall (a : aggregator) (file_count : Z) (nf period : float)
         (power_map : Dict.t float),
    reachable a ->
    (0 < file_count)%Z ->
    float_of_int file_count = Some nf ->
    Dict.get (sums a) period = Some power_map ->
    snd (finalize a file_count) = None
    /\ sums (fst (finalize a file_count)) = sums a
    /\ exists avg_map,
         Dict.get (probs (fst (finalize a file_count))) period = Some avg_map
         /\ avg_map = renormalize
                        (map (fun kv => (fst kv, (snd kv / nf)%float)) power_map)
         /\ Dict.keys avg_map = Dict.keys power_map.
Proof.
  intros a n nf period pm R Hn Hf G.
  destruct (reachable_well_keyed a R) as (W & WI).
  rewrite (finalize_unfold a n Hn). cbn [fst snd sums probs].
  split; [now apply (finalize_loop_converted n nf) |].
  split; [reflexivity |].
  assert (Wpm : well_keyed pm).
  { destruct (get_in _ _ _ _ G) as (k0 & Hin & _). now apply (WI k0). }
  exists (renormalize (average pm nf)). split; [| split].
  - apply finalize_loop_at; [assumption | apply W | assumption].
  - now rewrite average_is_map.
  - rewrite renormalize_keys, average_is_map by assumption.
    unfold Dict.keys. rewrite map_map. reflexivity.
Qed.

Lemma finalize_normalizes_every_period_witness :
  let a := add_record (add_record new_aggregator (mkPdfRecord (-1) (-150) 3))
             (mkPdfRecord (-1) (-140) 1) in
  snd (finalize a 2) = None
  /\ sums (fst (finalize a 2)) = sums a
  /\ exists avg_map,
       Dict.get (probs (fst (finalize a 2))) (-1) = Some avg_map
       /\ avg_map = renormalize
            (map (fun kv => (fst kv, (snd kv / 2)%float))
               [((-150)%float, 3%float); ((-140)%float, 1%float)])
       /\ Dict.keys avg_map = [(-150)%float; (-140)%float].
Proof.
  intros a.
  apply (finalize_normalizes_every_period a 2 2 (-1)
           [((-150)%float, 3%float); ((-140)%float, 1%float)]).
  - unfold a. repeat (apply reach_add || apply reach_new);
      repeat split; reflexivity.
  - lia.
  - reflexivity.
  - reflexivity.
Defined.

(** ** Probabilities come from sums *)

(** X5: in every aggregator built from well-formed samples by [add_record]
    and [finalize], a (period, power) bin that has a finalized probability
    has a running sum: [finalize] never invents a period or a power bin. *)
Theorem finalized_bins_have_sums :
  forall (a : aggregator) (period power : float),
    reachable a ->
    lookup (probs a) period power <> None ->
    lookup (sums a) period power <> None.
Proof.
  intros a period power R. revert period power.
  induction R as [| a r Ha IH Hr | a n Ha IH]; intros period power H.
  - exact H.
  - rewrite lookup_add_record.
    destruct (in_bin period power r); [unfold bump; discriminate |].
    now apply IH.
  - destruct (reachable_well_keyed a Ha) as (W & WI).
    unfold finalize in *. destruct (n <=? 0)%Z; [now apply IH |].
    destruct (finalize_loop n (sums a) (probs a)) as [pr e] eqn:L.
    cbn [fst sums probs] in *.
    assert (E : pr = fst (finalize_loop n (sums a) (probs a)))
      by (now rewrite L).
    unfold lookup in H. destruct (Dict.get pr period) as [avg |] eqn:G;
      [| contradiction].
    rewrite E in G. apply finalize_loop_origin in G.
    destruct G as [(k0 & pm & Hin & Ek & F) | G].
    + unfold lookup. rewrite (get_distinct _ _ k0 period pm (proj2 W) Hin Ek).
      destruct (finalize_period_returns n pm avg F) as [-> | (nf & -> )];
        [contradiction |].
      pose proof (proj1 (get_renormalize _ _) H) as H'.
      rewrite average_is_map in H' by (now apply (WI k0)).
      pose proof (get_map_values pm (fun v => (v / nf)%float) power) as M.
      cbn beta in M. rewrite M in H'.
      destruct (Dict.get pm power); [discriminate | now contradiction H'].
    + apply IH. unfold lookup. now rewrite G.
Qed.

Lemma finalized_bins_have_sums_witness :
  let a := fst (finalize
                  (add_record new_aggregator (mkPdfRecord (-1) (-150) 3)) 2) in
  lookup (sums a) (-1) (-150) <> None.
Proof.
  intros a. apply (finalized_bins_have_sums a (-1) (-150)).
  - unfold a. apply reach_finalize, reach_add; [apply reach_new |].
    repeat split; reflexivity.
  - vm_compute. discriminate.
Defined.

(** ** The first bin that reaches a fraction *)

Lemma float_leb_eqb_compat (t f c : float) :
  (t =? f)%float = true -> (t <=? c)%float = (f <=? c)%float.
Proof.
  intros E.
  destruct (t <=? c)%float eqn:L1; destruct (f <=? c)%float eqn:L2;
    try reflexivity.
  - apply float_eqb_sym, float_eqb_leb in E.
    now rewrite (float_leb_trans _ _ _ E L1) in L2.
  - apply float_eqb_leb in E.
    now rewrite (float_leb_trans _ _ _ E L2) in L1.
Qed.

Lemma reached_fst_le (c : float) (targets : list float) (t : float) :
  In t (fst (reached c targets)) -> (t <=? c)%float = true.
Proof.
  induction targets as [| t0 ts IH]; cbn; [tauto |].
  destruct (t0 <=? c)%float eqn:L; cbn; [| tauto].
  intros [<- | H]; [assumption | now apply IH].
Qed.

Lemma reached_snd_not_le (c : float) (targets : list float) (t : float) :
  StronglySorted (key_le (fun x => x)) targets ->
  In t (snd (reached c targets)) -> (t <=? c)%float = false.
Proof.
  induction 1 as [| t0 ts S IH F]; cbn; [tauto |].
  destruct (t0 <=? c)%float eqn:L; cbn; [exact IH |].
  intros [<- | H]; [assumption |].
  destruct (t <=? c)%float eqn:L'; [| reflexivity].
  rewrite Forall_forall in F. specialize (F t H). unfold key_le in F.
  now rewrite (float_leb_trans _ _ _ F L') in L.
Qed.

Lemma reached_snd_sorted (c : float) (targets : list float) :
  StronglySorted (key_le (fun x => x)) targets ->
  StronglySorted (key_le (fun x => x)) (snd (reached c targets)).
Proof.
  induction 1 as [| t0 ts S IH F]; cbn; [constructor |].
  destruct (t0 <=? c)%float; cbn; [exact IH | now constructor].
Qed.

Lemma assignments_first_reaching (items : list (float * float))
  (targets : list float) (c t p : float) :
  StronglySorted (key_le (fun x => x)) targets ->
  In (t, p) (assignments items targets c) ->
  exists before prob after,
    items = before ++ (p, prob) :: after
    /\ (t <=? cumulative_at c before prob after)%float = true
    /\ forall b1 q pr b2,
         before = b1 ++ (q, pr) :: b2 ->
         (t <=? fold_left PrimFloat.add (map snd b1 ++ [pr]) c)%float = false.
Proof.
  revert targets c. induction items as [| [power prob] rest IH];
    intros targets c ST H; [contradiction |].
  destruct rest as [| item rest].
  - cbn [assignments] in H. rewrite app_nil_r in H.
    apply in_map_iff in H. destruct H as (t' & E & Hin). injection E as -> <-.
    exists [], prob, []. split; [reflexivity |]. split.
    + now apply reached_fst_le in Hin.
    + intros [| ? ?] q pr b2 E; discriminate.
  - rewrite assignments_cons in H. apply in_app_or in H. destruct H as [H | H].
    + apply in_map_iff in H. destruct H as (t' & E & Hin). injection E as -> <-.
      exists [], prob, (item :: rest). split; [reflexivity |]. split.
      * now apply reached_fst_le in Hin.
      * intros [| ? ?] q pr b2 E; discriminate.
    + pose proof (assignments_targets _ _ _ _ _ H) as Ht.
      apply (reached_snd_not_le _ _ _ ST) in Ht.
      destruct (IH _ _ (reached_snd_sorted (c + prob)%float _ ST) H)
        as (before & prob' & after & E & L & B).
      exists ((power, prob) :: before), prob', after. split; [| split].
      * cbn. now rewrite <- E.
      * unfold cumulative_at in *. destruct after; [exact L | exact L].
      * intros [| [q0 pr0] b1] q pr b2 E'; cbn in E'.
        -- injection E' as <- <- _. exact Ht.
        -- injection E' as <- <- E'. cbn. now apply (B b1 q pr b2).
Qed.

(** X6: an answer of [percentiles_for_period] is the first bin, in ascending
    order of power, at which the cumulative probability reaches the fraction:
    the cumulative sum through that bin (or the forced total, at the last
    bin) is at least the fraction, and the cumulative sum through every
    earlier bin is not. *)
Theorem percentile_is_first_bin_reaching_fraction :
  forall (a : aggregator) (period : float) (power_map : Dict.t float)
         (fractions : list float) (res : Dict.t float) (f power : float),
    Dict.get (probs a) period = Some power_map ->
    Forall (fun t => is_nan t = false) fractions ->
    percentiles_for_period a period fractions = Return res ->
    Dict.get res f = Some power ->
    exists before prob after,
      py_sorted fst (valid_items power_map) = before ++ (power, prob) :: after
      /\ (f <=? cumulative_at 0 before prob after)%float = true
      /\ forall b1 q pr b2,
           before = b1 ++ (q, pr) :: b2 ->
           (f <=? py_sum (map snd b1 ++ [pr]))%float = false.
Proof.
  intros a period power_map fractions res f power G FN E Gf.
  unfold percentiles_for_period, percentiles_of in E. rewrite G in E.
  destruct (Dict.is_empty power_map); [discriminate |].
  injection E as <-. rewrite walk_assignments in Gf.
  apply apply_sets_value in Gf. destruct Gf as (t & Hin & Et).
  assert (ST : StronglySorted (key_le (fun x => x))
                 (py_sorted (fun x => x) fractions))
    by (now apply py_sorted_ascending).
  destruct (assignments_first_reaching _ _ _ _ _ ST Hin)
    as (before & prob & after & E & L & B).
  exists before, prob, after. split; [exact E |]. split.
  - now rewrite <- (float_leb_eqb_compat t f _ Et).
  - intros b1 q pr b2 Eb. rewrite <- (float_leb_eqb_compat t f _ Et).
    now apply (B b1 q pr b2).
Qed.

Lemma percentile_is_first_bin_reaching_fraction_witness :
  let power_map := [((-150)%float, 0.5%float); ((-140)%float, 0.5%float)] in
  exists before prob after,
    py_sorted fst (valid_items power_map)
    = before ++ ((-140)%float, prob) :: after
    /\ (0.75 <=? cumulative_at 0 before prob after)%float = true
    /\ forall b1 q pr b2,
         before = b1 ++ (q, pr) :: b2 ->
         (0.75 <=? py_sum (map snd b1 ++ [pr]))%float = false.
Proof.
  intros power_map.
  apply (percentile_is_first_bin_reaching_fraction
           (mkAggregator [] [((-1)%float, power_map)]) (-1) power_map
           [0.75%float] [(0.75%float, (-140)%float)] 0.75 (-140)).
  - reflexivity.
  - repeat constructor.
  - reflexivity.
  - reflexivity.
Defined.

(** ** From the files to the percentiles *)

Lemma reachable_fold (rs : list PdfRecord) (a : aggregator) :
  reachable a -> Forall finite_record rs ->
  reachable (fold_left add_record rs a).
Proof.
  revert a. induction rs as [| r rs IH]; cbn; intros a R F; [assumption |].
  inversion F. subst. apply IH; [now apply reach_add | assumption].
Qed.

Lemma read_years_reachable (readers : list reader) (a : aggregator) (t : Z) :
  reachable a -> Forall sound_reader readers ->
  reachable (fst (read_years readers a t)).
Proof.
  revert a t. induction readers as [| rd rest IH]; cbn; intros a t R F;
    [assumption |].
  inversion F as [| ? ? (_ & Hr) F']. subst.
  destruct (0 <? file_count rd)%Z; apply IH; auto.
  now apply reachable_fold.
Qed.

Lemma read_years_total (readers : list reader) (a : aggregator) (t : Z) :
  Forall sound_reader readers -> (0 <= t)%Z ->
  (t <= snd (read_years readers a t))%Z
  /\ (snd (read_years readers a t) = 0%Z ->
      Forall (fun rd => file_count rd = 0%Z) readers).
Proof.
  revert a t. induction readers as [| rd rest IH]; cbn; intros a t F Ht.
  - split; [lia | constructor].
  - inversion F as [| ? ? (Hc & _) F']. subst.
    destruct (0 <? file_count rd)%Z eqn:E.
    + apply Z.ltb_lt in E.
      destruct (IH (fold_left add_record (records rd) a)
                  (t + file_count rd)%Z F') as (L & Z0); [lia |].
      split; [lia |]. intros H. rewrite H in L. lia.
    + apply Z.ltb_ge in E. destruct (IH a t F' Ht) as (L & Z0).
      split; [assumption |]. intros H. constructor; [lia | now apply Z0].
Qed.

Lemma lookup_fold_keeps (rs : list PdfRecord) (a : aggregator)
  (period power : float) :
  lookup (sums a) period power <> None ->
  lookup (sums (fold_left add_record rs a)) period power <> None.
Proof.
  revert a. induction rs as [| r rs IH]; cbn; intros a H; [assumption |].
  apply IH. rewrite lookup_add_record.
  destruct (in_bin period power r); [unfold bump; discriminate | assumption].
Qed.

Lemma lookup_fold_in (rs : list PdfRecord) (a : aggregator) (r : PdfRecord) :
  In r rs -> is_nan (period_log10 r) = false -> is_nan (power_db r) = false ->
  lookup (sums (fold_left add_record rs a)) (period_log10 r) (power_db r)
  <> None.
Proof.
  revert a. induction rs as [| r0 rs IH]; intros a Hin Np Nw;
    [contradiction |].
  cbn. destruct Hin as [-> | Hin].
  - apply lookup_fold_keeps. rewrite lookup_add_record. unfold in_bin.
    rewrite !float_eqb_refl by assumption. unfold bump. discriminate.
  - now apply IH.
Qed.

Lemma read_years_keeps (readers : list reader) (a : aggregator) (t : Z)
  (period power : float) :
  lookup (sums a) period power <> None ->
  lookup (sums (fst (read_years readers a t))) period power <> None.
Proof.
  revert a t. induction readers as [| rd rest IH]; cbn; intros a t H;
    [assumption |].
  destruct (0 <? file_count rd)%Z; apply IH; [| assumption].
  now apply lookup_fold_keeps.
Qed.

Lemma read_years_in (readers : list reader) (a : aggregator) (t : Z)
  (rd : reader) (r : PdfRecord) :
  In rd readers -> (0 < file_count rd)%Z -> In r (records rd) ->
  is_nan (period_log10 r) = false -> is_nan (power_db r) = false ->
  lookup (sums (fst (read_years readers a t))) (period_log10 r) (power_db r)
  <> None.
Proof.
  revert a t. induction readers as [| rd0 rest IH];
    intros a t Hin Hc Hr Np Nw; [contradiction |].
  cbn. destruct Hin as [-> | Hin].
  - apply Z.ltb_lt in Hc. rewrite Hc. apply read_years_keeps.
    now apply lookup_fold_in.
  - destruct (0 <? file_count rd0)%Z; now apply IH.
Qed.

(** On a reachable aggregator the loop over the periods ends, with one entry
    for each period of [probs], in ascending order. *)
Lemma percentiles_all_periods_reachable (a : aggregator)
  (fractions : list float) :
  reachable a ->
  exists res,
    percentiles_all_periods a fractions = Return res
    /\ StronglySorted (key_le (fun x => x)) (Dict.keys res)
    /\ forall period, In period (Dict.keys (probs a)) ->
                      Dict.get res period <> None.
Proof.
  intros Ha. destruct (reachable_inv a Ha) as (_ & _ & P1 & _).
  destruct (percentiles_all_periods_ok a fractions P1
              (reachable_probs_well_keyed a Ha)) as (res & E & SS & _ & C).
  exists res. auto.
Qed.

(** X7: the aggregation that [main] runs for one station and component, on
    readers whose file counts are lengths and whose samples are well formed,
    never raises: the component is skipped only when no reader has a file,
    so [finalize] is never called with a count that it rejects; otherwise
    the percentiles are returned, by ascending period, with an entry for the
    period of every sample read from a reader that has files. *)
Theorem aggregate_component_reports_every_period :
  forall (readers : list reader) (percentiles : list float),
    Forall sound_reader readers ->
    float_of_int (snd (read_years readers new_aggregator 0)) <> None ->
    match aggregate_component readers percentiles with
    | None => Forall (fun rd => file_count rd = 0%Z) readers
    | Some (Raise _) => False
    | Some (Return res) =>
        StronglySorted (key_le (fun x => x)) (Dict.keys res)
        /\ forall rd r,
             In rd readers -> (0 < file_count rd)%Z -> In r (records rd) ->
             Dict.get res (period_log10 r) <> None
    end.
Proof.
  intros readers percentiles F Hf. unfold aggregate_component.
  pose proof (read_years_reachable readers new_aggregator 0 reach_new F) as R.
  pose proof (read_years_total readers new_aggregator 0 F (Z.le_refl 0))
    as (Ht & Z0).
  pose proof (read_years_in readers new_aggregator 0) as Hin.
  destruct (read_years readers new_aggregator 0) as [agg total].
  cbn [fst snd] in *.
  destruct (total =? 0)%Z eqn:E0.
  - apply Z0. now apply Z.eqb_eq.
  - apply Z.eqb_neq in E0.
    assert (Hpos : (0 < total)%Z) by lia.
    destruct (float_of_int total) as [nf |] eqn:Hnf; [| congruence].
    rewrite (finalize_unfold agg total Hpos).
    rewrite (finalize_loop_converted total nf _ _ Hnf).
    assert (R' : reachable (mkAggregator (sums agg)
                   (fst (finalize_loop total (sums agg) (probs agg))))).
    { pose proof (reach_finalize agg total R) as R'.
      now rewrite (finalize_unfold agg total Hpos) in R'. }
    destruct (percentiles_all_periods_reachable _ percentiles R')
      as (res & E & SS & C).
    rewrite E. split; [exact SS |].
    intros rd r Hrd Hc Hr.
    assert (Fr : finite_record r).
    { rewrite Forall_forall in F. destruct (F rd Hrd) as (_ & Fr).
      rewrite Forall_forall in Fr. now apply Fr. }
    destruct Fr as (Fp & Fw & _). apply is_finite_not_nan in Fp, Fw.
    specialize (Hin rd r Hrd Hc Hr Fp Fw). unfold lookup in Hin.
    destruct (Dict.get (sums agg) (period_log10 r)) as [pm |] eqn:G;
      [| contradiction].
    destruct (reachable_well_keyed agg R) as ((_ & D) & _).
    pose proof (finalize_loop_at total nf (sums agg) (probs agg)
                  (period_log10 r) pm Hnf D G) as GP.
    destruct (get_in _ _ _ _ GP) as (k0 & Hk0 & Ek).
    rewrite <- (get_eqb_compat _ res k0 (period_log10 r) Ek).
    apply C. cbn [probs]. apply (in_map fst _ _ Hk0).
Qed.

Lemma aggregate_component_reports_every_period_witness :
  let readers :=
    [mkReader 0 [];
     mkReader 2 [mkPdfRecord (-1) (-150) 1; mkPdfRecord 0.5 (-140) 1]] in
  match aggregate_component readers [0.5%float] with
  | None => Forall (fun rd => file_count rd = 0%Z) readers
  | Some (Raise _) => False
  | Some (Return res) =>
      StronglySorted (key_le (fun x => x)) (Dict.keys res)
      /\ forall rd r,
           In rd readers -> (0 < file_count rd)%Z -> In r (records rd) ->
           Dict.get res (period_log10 r) <> None
  end.
Proof.
  intros readers.
  apply (aggregate_component_reports_every_period readers [0.5%float]).
  - repeat constructor; cbn; try lia; repeat split; reflexivity.
  - vm_compute. discriminate.
Defined.

(** ** White space around the columns *)

Lemma list_ascii_of_string_app (s1 s2 : string) :
  list_ascii_of_string (s1 ++ s2)
  = list_ascii_of_string s1 ++ list_ascii_of_string s2.
Proof.
  induction s1 as [| c s1 IH]; cbn; [reflexivity | now rewrite IH].
Qed.

Lemma split_from_space (cur s e : list ascii) (c : ascii) :
  is_space c = true ->
  split_from cur (s ++ c :: e) = split_from cur s ++ split_from [] e.
Proof.
  intros Hc. revert cur. induction s as [| c0 s IH]; intros cur; cbn.
  - rewrite Hc. now destruct cur.
  - destruct (is_space c0); [| apply IH].
    destruct cur; cbn; now rewrite IH.
Qed.

Lemma split_from_blank (ws : list ascii) :
  forallb is_space ws = true -> split_from [] ws = [].
Proof.
  induction ws as [| c ws IH]; cbn; [reflexivity |].
  intros H. apply andb_true_iff in H. destruct H as (Hc & H).
  rewrite Hc. now apply IH.
Qed.

Lemma split_from_blank_after (cur s ws : list ascii) :
  forallb is_space ws = true -> split_from cur (s ++ ws) = split_from cur s.
Proof.
  destruct ws as [| c ws]; cbn; intros H; [now rewrite app_nil_r |].
  apply andb_true_iff in H. destruct H as (Hc & H).
  rewrite (split_from_space cur s ws c Hc), (split_from_blank ws H).
  apply app_nil_r.
Qed.

Lemma split_from_blank_before (ws s : list ascii) :
  forallb is_space ws = true -> split_from [] (ws ++ s) = split_from [] s.
Proof.
  induction ws as [| c ws IH]; cbn; [reflexivity |].
  intros H. apply andb_true_iff in H. destruct H as (Hc & H).
  rewrite Hc. now apply IH.
Qed.

(** X8: [parse] reads the first three columns and nothing else.  A blank
    line gives [None]; white space before and after a line, such as the end
    of line that [iter_records] leaves in place, changes nothing; and what
    follows a line that gives a record, after white space, is ignored. *)
Theorem parse_reads_the_first_three_columns :
  (forall ws : string, blank ws = true -> parse ws = None)
  /\ (forall ws1 line ws2 : string,
        blank ws1 = true -> blank ws2 = true ->
        parse (ws1 ++ line ++ ws2) = parse line)
  /\ (forall (line extra : string) (c : ascii) (r : PdfRecord),
        is_space c = true ->
        parse line = Some r ->
        parse (line ++ String c extra) = Some r).
Proof.
  split; [| split].
  - intros ws H. unfold parse, py_split. now rewrite (split_from_blank _ H).
  - intros ws1 line ws2 H1 H2. unfold parse, py_split.
    rewrite !list_ascii_of_string_app.
    now rewrite (split_from_blank_before _ _ H1), (split_from_blank_after _ _ _ H2).
  - intros line extra c r Hc H. unfold parse, py_split in *.
    rewrite list_ascii_of_string_app. cbn [list_ascii_of_string].
    rewrite (split_from_space _ _ _ _ Hc).
    destruct (split_from [] (list_ascii_of_string line))
      as [| t0 [| t1 [| t2 rest]]]; try discriminate.
    exact H.
Qed.

Lemma parse_reads_the_first_three_columns_witness :
  parse ("-1.0 -150 0.5" ++ String "010"%char EmptyString)
  = parse "-1.0 -150 0.5"
  /\ parse ("-1.0 -150 0.5" ++ String " "%char "7 # note")
     = Some (mkPdfRecord (-1) (-150) 0.5).
Proof.
  destruct parse_reads_the_first_three_columns as (_ & H2 & H3). split.
  - apply (H2 EmptyString "-1.0 -150 0.5"%string
             (String "010"%char EmptyString)); reflexivity.
  - apply H3; reflexivity.
Defined.
